(** * Warp-level tensor-op matrix multiply-accumulate: a shallow embedding

    The development follows [include/cutlass/gemm/warp/mma_tensor_op.h]:
    the operand conversion helpers of namespace [detail], the compile-time
    iteration grid of [MmaTensorOp], the serpentine driver [operator()]
    and [transform].

    Conventions.
    - C++ [int] values are integers of [Z]; [/] and [%] are the truncating
      [Z.quot] and [Z.rem].  Signed overflow has no defined behaviour in
      C++: the embedding describes the program wherever its arithmetic
      stays in the range of [int].
    - [Array<T, N>] is a list holding [N] elements.  An access outside the
      array has no defined behaviour in C++; the model makes it an error
      ([None]) so that every result [Some _] is one the program really
      computes.
    - A fragment seen through [reinterpret_cast<MmaOperand const *>] is the
      list of its operand-sized chunks. *)

From stdpp Require Import base numbers list list_numbers option.

Open Scope Z_scope.

(** The largest value of a 32-bit [int]. *)
Definition INT_MAX : Z := 2147483647.

(** ** Arrays indexed by [int] *)

Definition array_get {T : Type} (l : list T) (i : Z) : option T :=
  if decide (0 ≤ i) then l !! Z.to_nat i else None.

Definition array_set {T : Type} (l : list T) (i : Z) (x : T) : option (list T) :=
  if decide (0 ≤ i < Z.of_nat (length l))
  then Some (<[Z.to_nat i := x]> l) else None.

(** [for (int i = 0; i < bound; ++i) body(i)] over a state that may fail. *)
Fixpoint for_each {I St : Type} (body : I → St → option St)
    (l : list I) (s : St) : option St :=
  match l with
  | [] => Some s
  | i :: l' => s' ← body i s; for_each body l' s'
  end.

Definition for_loop {St : Type} (bound : Z) (body : Z → St → option St)
    (s : St) : option St :=
  for_each body (seqZ 0 bound) s.

(** ** Element types and the numeric library *)

(** The element types of [cutlass/numeric_types.h] that reach this file. *)
Inductive Element : Type :=
  | half_t | float | double | int8_t | uint8_t | int4b_t | uint4b_t
  | uint1b_t | int32_t.

Global Instance Element_eq_dec : EqDecision Element.
Proof. solve_decision. Defined.

(** Modelled from the spec: [cutlass/numeric_conversion.h] is not part of
    the sources at hand.  [NumericConverter T S Round] is the library's
    conversion of one element from [S] to [T];
    [PreferredRoundingMode T S] is its [kRound] constant.  Element values
    of every type live in one carrier [Value] (their bit pattern). *)
Class NumericLibrary := {
  Value : Type;
  FloatRoundStyle : Type;
  NumericConverter : Element → Element → FloatRoundStyle → Value → Value;
  PreferredRoundingMode : Element → Element → FloatRoundStyle
}.

(** Modelled from the spec: [NumericArrayConverter<T, S, N, Round>] applies
    the element-wise rounding conversion to each of the [N] elements. *)
Definition NumericArrayConverter `{NumericLibrary} (T S : Element) (N : Z)
    (Round : FloatRoundStyle) (source : list Value) : list Value :=
  NumericConverter T S Round <$> source.

(** ** detail::ConvertAndPack *)

(** [((i << 1) & 2) | ((i >> 1) & 1) | (i & 0xfffffffc)] *)
Definition pack_index (i : Z) : Z :=
  Z.lor (Z.lor (Z.land (Z.shiftl i 1) 2) (Z.land (Z.shiftr i 1) 1))
        (Z.land i 4294967292).

(** The loop filling [tmp]: [tmp[i] = source[idx]] for [i] in [0, N). *)
Definition pack_loop {T : Type} (N : Z) (source : list T) : option (list T) :=
  mapM (λ i, array_get source (pack_index i)) (seqZ 0 N).

(** The primary template and its two partial specialisations.  The
    specialisation [<T, T, N, Round>] is chosen when both types coincide,
    [<half_t, float, N, Round>] when the target is [half_t] and the source
    [float]; they cannot both match. *)
Definition ConvertAndPack `{NumericLibrary} (T S : Element) (N : Z)
    (Round : FloatRoundStyle) (source : list Value) : option (list Value) :=
  if decide (T = S) then
    Some source
  else if decide (T = half_t ∧ S = float) then
    tmp ← pack_loop N source;
    Some (NumericArrayConverter half_t float N Round tmp)
  else
    Some (NumericArrayConverter T S N Round source).

(** ** The class template MmaTensorOp *)

Record GemmShape := { kM : Z; kN : Z; kK : Z }.

Record MatrixShape := { kRow : Z; kColumn : Z }.

(** The template arguments of [MmaTensorOp] and the constants it takes from
    its policy and from the tile iterators (which are declared in headers
    that are not part of the sources at hand, and are parameters here). *)
Record MmaTensorOp := {
  Shape : GemmShape;                  (* Shape_ *)
  ElementA : Element;                 (* ElementA_ *)
  ElementB : Element;                 (* ElementB_ *)
  Operator_Shape : GemmShape;         (* Policy::Operator::Shape *)
  Operator_ElementA : Element;        (* Policy::Operator::ElementA *)
  Operator_ElementB : Element;        (* Policy::Operator::ElementB *)
  AccumulatorsInRowMajor : bool;
  kPartitionsN : Z;                   (* PartitionsN_ *)
  FragmentA_kElements : Z;            (* FragmentA::kElements *)
  FragmentB_kElements : Z;            (* FragmentB::kElements *)
  MmaOperandB_kElements : Z           (* Policy::Operator::FragmentB::kElements *)
}.

(** [using MmaIterations = MatrixShape<...>] *)
Definition MmaIterations (op : MmaTensorOp) : MatrixShape :=
  {| kRow := kM (Shape op) ÷ kM (Operator_Shape op);
     kColumn :=
       if decide (kN (Shape op) ÷ kN (Operator_Shape op) ÷ kPartitionsN op > 0)
       then kN (Shape op) ÷ kN (Operator_Shape op) ÷ kPartitionsN op
       else 1 |}.

(** The condition of the [static_assert]. *)
Definition shape_assertion (op : MmaTensorOp) : bool :=
  negb (bool_decide (kM (Shape op) `rem` kM (Operator_Shape op) ≠ 0)) &&
  negb (bool_decide (kN (Shape op) `rem` kN (Operator_Shape op) ≠ 0)).

(** Instantiating the class template.  The build is rejected ([None]) when
    the [static_assert] fails; a division by zero inside one of the constant
    expressions is ill-formed and rejects the build as well.  Otherwise the
    class exists and carries its iteration grid. *)
Definition instantiate (op : MmaTensorOp) : option MatrixShape :=
  if decide (kM (Operator_Shape op) = 0 ∨ kN (Operator_Shape op) = 0 ∨
             kPartitionsN op = 0) then None
  else if shape_assertion op then Some (MmaIterations op)
  else None.

(** ** The elementary primitive (concept: arch::Mma) *)

(** [mma(d, a, b, c)] writes [d] from [a], [b] and [c]; the embedding
    returns the value written to [d]. *)
Class ArchMma := {
  MmaOperandA : Type;
  MmaOperandB : Type;
  MmaOperandC : Type;
  mma : MmaOperandA → MmaOperandB → MmaOperandC → MmaOperandC
}.

(** One call of the primitive by the driver: the chunk indices into
    [ptr_D], [ptr_A] and [ptr_B]. *)
Record MmaCall := { d_idx : Z; a_idx : Z; b_idx : Z }.

Global Instance MmaCall_eq_dec : EqDecision MmaCall.
Proof. solve_decision. Defined.

(** ** MmaTensorOp::operator() *)

(** [partitionN_idx * FragmentB::kElements / MmaOperandB::kElements / kPartitionsN],
    evaluated from left to right. *)
Definition n_off (op : MmaTensorOp) (partitionN_idx : Z) : Z :=
  partitionN_idx * FragmentB_kElements op ÷ MmaOperandB_kElements op
    ÷ kPartitionsN op.

(** [(n % 2) ? (MmaIterations::kRow - 1 - m) : m] *)
Definition m_serpentine (op : MmaTensorOp) (n m : Z) : Z :=
  if decide (n `rem` 2 ≠ 0) then kRow (MmaIterations op) - 1 - m else m.

(** The body of the inner loop at row [ms]: which call is issued. *)
Definition loop_body {St : Type} (op : MmaTensorOp)
    (invoke : MmaCall → St → option St) (partitionN_idx n ms : Z)
    : St → option St :=
  if AccumulatorsInRowMajor op then
    invoke {| d_idx := n + ms * kColumn (MmaIterations op);
              a_idx := ms;
              b_idx := n |}
  else
    invoke {| d_idx := ms + (n + n_off op partitionN_idx) * kRow (MmaIterations op);
              a_idx := ms;
              b_idx := n + n_off op partitionN_idx |}.

(** The two nested loops of [operator()], for any meaning [invoke] of a
    call of the primitive. *)
Definition mma_loops {St : Type} (op : MmaTensorOp)
    (invoke : MmaCall → St → option St) (partitionN_idx : Z)
    : St → option St :=
  for_loop (kColumn (MmaIterations op)) (λ n,
    for_loop (kRow (MmaIterations op)) (λ m,
      loop_body op invoke partitionN_idx n (m_serpentine op n m))).

(** [mma(ptr_D[d], ptr_A[a], ptr_B[b], ptr_D[d])] *)
Definition mma_at `{ArchMma} (A : list MmaOperandA) (B : list MmaOperandB)
    (c : MmaCall) (D : list MmaOperandC) : option (list MmaOperandC) :=
  x ← array_get A (a_idx c);
  y ← array_get B (b_idx c);
  z ← array_get D (d_idx c);
  array_set D (d_idx c) (mma x y z).

(** The value a call leaves in its accumulator chunk when it runs on the
    accumulators [C]. *)
Definition call_value `{ArchMma} (A : list MmaOperandA) (B : list MmaOperandB)
    (C : list MmaOperandC) (c : MmaCall) : option MmaOperandC :=
  x ← array_get A (a_idx c);
  y ← array_get B (b_idx c);
  z ← array_get C (d_idx c);
  Some (mma x y z).

(** [operator()(D, A, B, C, partitionN_idx)]: the returned value is the
    final content of [D]. *)
Definition operator_call `{ArchMma} (op : MmaTensorOp)
    (A : list MmaOperandA) (B : list MmaOperandB) (C : list MmaOperandC)
    (partitionN_idx : Z) : option (list MmaOperandC) :=
  let D := C in
  mma_loops op (mma_at A B) partitionN_idx D.

(** The same loops, recording each call instead of performing it. *)
Definition operator_trace (op : MmaTensorOp) (partitionN_idx : Z)
    : option (list MmaCall) :=
  mma_loops op (λ c log, Some (log ++ [c])) partitionN_idx [].

(** ** MmaTensorOp::transform *)

(** [transform(dst_A, dst_B, A, B)]: the returned pair is the final content
    of [dst_A] and [dst_B].  [ptr_B[k]] and [ptr_dst_B[k]] are the [k]-th
    blocks of [FragmentB::kElements / 2] elements. *)
Definition transform `{NumericLibrary} (op : MmaTensorOp)
    (dst_A dst_B A B : list Value) : option (list Value * list Value) :=
  let midway_depstage :=
    negb (bool_decide (Operator_ElementA op = ElementA op) &&
          bool_decide (Operator_ElementB op = ElementB op)) in
  let kRoundA := PreferredRoundingMode (Operator_ElementA op) (ElementA op) in
  let kRoundB := PreferredRoundingMode (Operator_ElementB op) (ElementB op) in
  let convert_A :=
    ConvertAndPack (Operator_ElementA op) (ElementA op)
      (FragmentA_kElements op) kRoundA in
  let half := FragmentB_kElements op ÷ 2 in
  let convert_B :=
    NumericArrayConverter (Operator_ElementB op) (ElementB op) half kRoundB in
  let ptr_B (k : nat) := take (Z.to_nat half) (drop (k * Z.to_nat half) B) in
  dst_A' ← convert_A A;
  let dst_B' :=
    convert_B (ptr_B 0%nat) ++ convert_B (ptr_B 1%nat)
      ++ drop (2 * Z.to_nat half) dst_B in
  Some (dst_A', dst_B').

(** ** Reference definitions the driver is compared with *)

(** The double loop without the serpentine: rows are visited in forward
    order in every column. *)
Definition naive_loops {St : Type} (op : MmaTensorOp)
    (invoke : MmaCall → St → option St) (partitionN_idx : Z)
    : St → option St :=
  for_loop (kColumn (MmaIterations op)) (λ n,
    for_loop (kRow (MmaIterations op)) (λ m,
      loop_body op invoke partitionN_idx n m)).

Definition naive_call `{ArchMma} (op : MmaTensorOp)
    (A : list MmaOperandA) (B : list MmaOperandB) (C : list MmaOperandC)
    (partitionN_idx : Z) : option (list MmaOperandC) :=
  let D := C in
  naive_loops op (mma_at A B) partitionN_idx D.

(** The sub-tile pairs [(n, m_serpentine)] in the order the loops reach
    them. *)
Definition visits (op : MmaTensorOp) : list (Z * Z) :=
  n ← seqZ 0 (kColumn (MmaIterations op));
  m ← seqZ 0 (kRow (MmaIterations op));
  [(n, m_serpentine op n m)].

(** The accumulator chunk used for sub-tile [(m, n)]. *)
Definition slot (op : MmaTensorOp) (partitionN_idx m n : Z) : Z :=
  if AccumulatorsInRowMajor op
  then n + m * kColumn (MmaIterations op)
  else m + (n + n_off op partitionN_idx) * kRow (MmaIterations op).

(** The call for the visit [(n, ms)] in the words of the specification:
    the B operand is [n + n_off] whatever the accumulator layout. *)
Definition spec_call (op : MmaTensorOp) (partitionN_idx : Z) (v : Z * Z)
    : MmaCall :=
  {| d_idx := slot op partitionN_idx v.2 v.1;
     a_idx := v.2;
     b_idx := v.1 + n_off op partitionN_idx |}.

(** The call the loop body issues for the visit [(n, ms)]. *)
Definition issued_call (op : MmaTensorOp) (partitionN_idx : Z) (v : Z * Z)
    : MmaCall :=
  {| d_idx := slot op partitionN_idx v.2 v.1;
     a_idx := v.2;
     b_idx := if AccumulatorsInRowMajor op then v.1
              else v.1 + n_off op partitionN_idx |}.

Definition with_AccumulatorsInRowMajor (op : MmaTensorOp) (b : bool)
    : MmaTensorOp :=
  {| Shape := Shape op; ElementA := ElementA op; ElementB := ElementB op;
     Operator_Shape := Operator_Shape op;
     Operator_ElementA := Operator_ElementA op;
     Operator_ElementB := Operator_ElementB op;
     AccumulatorsInRowMajor := b;
     kPartitionsN := kPartitionsN op;
     FragmentA_kElements := FragmentA_kElements op;
     FragmentB_kElements := FragmentB_kElements op;
     MmaOperandB_kElements := MmaOperandB_kElements op |}.

Definition with_PartitionsN (op : MmaTensorOp) (P : Z) : MmaTensorOp :=
  {| Shape := Shape op; ElementA := ElementA op; ElementB := ElementB op;
     Operator_Shape := Operator_Shape op;
     Operator_ElementA := Operator_ElementA op;
     Operator_ElementB := Operator_ElementB op;
     AccumulatorsInRowMajor := AccumulatorsInRowMajor op;
     kPartitionsN := P;
     FragmentA_kElements := FragmentA_kElements op;
     FragmentB_kElements := FragmentB_kElements op;
     MmaOperandB_kElements := MmaOperandB_kElements op |}.

(** The number of operator-sized columns of the whole tile. *)
Definition tile_columns (op : MmaTensorOp) : Z :=
  kN (Shape op) ÷ kN (Operator_Shape op).

(** A configuration the build accepts, with positive extents, whose B
    fragment holds one operand chunk per column of the whole tile (what the
    B tile iterator delivers). *)
Definition valid_config (op : MmaTensorOp) : Prop :=
  is_Some (instantiate op) ∧
  0 < kM (Shape op) ∧ 0 < kN (Shape op) ∧
  0 < kM (Operator_Shape op) ∧ 0 < kN (Operator_Shape op) ∧
  1 ≤ kPartitionsN op ∧
  0 < MmaOperandB_kElements op ∧
  FragmentB_kElements op = tile_columns op * MmaOperandB_kElements op.

(** Fragments of the sizes the tile iterators deliver: one A chunk per grid
    row, one B chunk per tile column, one accumulator chunk per sub-tile of
    the whole tile. *)
Definition fragments_fit {TA TB TC : Type} (op : MmaTensorOp)
    (A : list TA) (B : list TB) (C : list TC) : Prop :=
  Z.of_nat (length A) = kRow (MmaIterations op) ∧
  Z.of_nat (length B) = tile_columns op ∧
  Z.of_nat (length C) = kRow (MmaIterations op) * tile_columns op.

(** The value of sub-tile [(m, c)] of the whole tile, from the chunks of
    column-major fragments: [mma(A[m], B[c], C[m + c*rows])]. *)
Definition subtile_value `{ArchMma} (rows : Z) (A : list MmaOperandA)
    (B : list MmaOperandB) (C : list MmaOperandC) (c m : Z)
    : option MmaOperandC :=
  x ← array_get A m;
  y ← array_get B c;
  z ← array_get C (m + c * rows);
  Some (mma x y z).

(** Column [n] of a result, read through the addressing the driver used
    for partition [partitionN_idx]. *)
Definition column_of {TC : Type} (op : MmaTensorOp) (partitionN_idx : Z)
    (D : option (list TC)) (n : Z) : list (option TC) :=
  (λ m, D ≫= λ D', array_get D' (slot op partitionN_idx m n))
    <$> seqZ 0 (kRow (MmaIterations op)).

(** The outputs of the [kPartitionsN] runs, one per partition index,
    concatenated along N: the columns of partition 0, then those of
    partition 1, and so on. *)
Definition partitioned_columns `{ArchMma} (op : MmaTensorOp)
    (A : list MmaOperandA) (B : list MmaOperandB) (C : list MmaOperandC)
    : list (list (option MmaOperandC)) :=
  p ← seqZ 0 (kPartitionsN op);
  n ← seqZ 0 (kColumn (MmaIterations op));
  [column_of op p (operator_call op A B C p) n].

(** The columns of the single run with one partition over the full N
    range. *)
Definition full_columns `{ArchMma} (op : MmaTensorOp)
    (A : list MmaOperandA) (B : list MmaOperandB) (C : list MmaOperandC)
    : list (list (option MmaOperandC)) :=
  let op1 := with_PartitionsN op 1 in
  column_of op1 0 (operator_call op1 A B C 0)
    <$> seqZ 0 (kColumn (MmaIterations op1)).

(** [transform] in the words of the specification: the rule of
    [ConvertAndPack] governs A and each half of B. *)
Definition spec_transform `{NumericLibrary} (op : MmaTensorOp)
    (dst_A dst_B A B : list Value) : option (list Value * list Value) :=
  let kRoundA := PreferredRoundingMode (Operator_ElementA op) (ElementA op) in
  let kRoundB := PreferredRoundingMode (Operator_ElementB op) (ElementB op) in
  let half := FragmentB_kElements op ÷ 2 in
  let rule_B :=
    ConvertAndPack (Operator_ElementB op) (ElementB op) half kRoundB in
  let ptr_B (k : nat) := take (Z.to_nat half) (drop (k * Z.to_nat half) B) in
  dst_A' ← ConvertAndPack (Operator_ElementA op) (ElementA op)
             (FragmentA_kElements op) kRoundA A;
  b0 ← rule_B (ptr_B 0%nat);
  b1 ← rule_B (ptr_B 1%nat);
  Some (dst_A', b0 ++ b1 ++ drop (2 * Z.to_nat half) dst_B).

(** Applying the float-to-half repacking of the elements on its own. *)
Definition repack {T : Type} (l : list T) : option (list T) :=
  pack_loop (Z.of_nat (length l)) l.

(** ** Concrete instances used to evaluate the definitions *)

(** Chunks are integers and the primitive computes [a * b + c]. *)
Definition Z_mma : ArchMma :=
  {| MmaOperandA := Z; MmaOperandB := Z; MmaOperandC := Z;
     mma := λ a b c, a * b + c |}.

(** Element values are integers; converting to [half_t] clears the three
    low bits, every other conversion keeps the value. *)
Definition Z_numeric : NumericLibrary :=
  {| Value := Z; FloatRoundStyle := unit;
     NumericConverter := λ T _ _ v,
       if decide (T = half_t) then v ÷ 8 * 8 else v;
     PreferredRoundingMode := λ _ _, tt |}.

Definition example_op (rows cols P : Z) (row_major : bool) : MmaTensorOp :=
  {| Shape := {| kM := 16 * rows; kN := 8 * cols; kK := 8 |};
     ElementA := half_t; ElementB := half_t;
     Operator_Shape := {| kM := 16; kN := 8; kK := 8 |};
     Operator_ElementA := half_t; Operator_ElementB := half_t;
     AccumulatorsInRowMajor := row_major;
     kPartitionsN := P;
     FragmentA_kElements := 4 * rows;
     FragmentB_kElements := 2 * cols;
     MmaOperandB_kElements := 2 |}.

Definition example_float_op : MmaTensorOp :=
  {| Shape := {| kM := 16; kN := 32; kK := 8 |};
     ElementA := float; ElementB := float;
     Operator_Shape := {| kM := 16; kN := 8; kK := 8 |};
     Operator_ElementA := half_t; Operator_ElementB := half_t;
     AccumulatorsInRowMajor := false;
     kPartitionsN := 1;
     FragmentA_kElements := 4;
     FragmentB_kElements := 8;
     MmaOperandB_kElements := 2 |}.

(** A configuration whose B fragment has an odd number of elements. *)
Definition example_odd_op : MmaTensorOp :=
  {| Shape := {| kM := 16; kN := 8; kK := 8 |};
     ElementA := half_t; ElementB := float;
     Operator_Shape := {| kM := 16; kN := 8; kK := 8 |};
     Operator_ElementA := half_t; Operator_ElementB := half_t;
     AccumulatorsInRowMajor := false;
     kPartitionsN := 1;
     FragmentA_kElements := 4;
     FragmentB_kElements := 5;
     MmaOperandB_kElements := 5 |}.

(** * Properties *)

(** ** Arrays and loops *)

Section array_facts.
Context {T : Type}.
Implicit Types (l : list T) (i j : Z) (x : T).

Lemma array_get_Some l i x :
  array_get l i = Some x ↔ 0 ≤ i ∧ l !! Z.to_nat i = Some x.
Proof. unfold array_get. case_decide; [tauto | split; [done | lia]]. Qed.

Lemma array_get_is_Some l i :
  is_Some (array_get l i) ↔ 0 ≤ i < Z.of_nat (length l).
Proof.
  unfold array_get. case_decide.
  - rewrite lookup_lt_is_Some. lia.
  - split; [intros [? [=]] | lia].
Qed.

Lemma array_ext l l' :
  length l = length l' →
  (∀ i, 0 ≤ i < Z.of_nat (length l) → array_get l i = array_get l' i) →
  l = l'.
Proof.
  intros Hlen Hget. apply list_eq_same_length with (length l); [done..|].
  intros k x y Hk Hx Hy.
  specialize (Hget (Z.of_nat k) ltac:(lia)). unfold array_get in Hget.
  rewrite !decide_True, !Nat2Z.id in Hget by lia. congruence.
Qed.
End array_facts.

Section for_each_facts.
Context {I St : Type}.
Implicit Types (body : I → St → option St) (l : list I) (s : St).

Lemma for_each_app body l1 l2 s :
  for_each body (l1 ++ l2) s = for_each body l1 s ≫= for_each body l2.
Proof.
  revert s. induction l1 as [|i l1 IH]; intros s; simpl; [done|].
  destruct (body i s); simpl; [apply IH | done].
Qed.

Lemma for_each_ext body1 body2 l s :
  (∀ i s', i ∈ l → body1 i s' = body2 i s') →
  for_each body1 l s = for_each body2 l s.
Proof.
  revert s. induction l as [|i l IH]; intros s Hb; simpl; [done|].
  rewrite Hb by left. destruct (body2 i s); simpl; [|done].
  apply IH. intros. apply Hb. by right.
Qed.

Lemma for_each_fmap {J : Type} (f : J → I) body (l : list J) s :
  for_each body (f <$> l) s = for_each (λ j, body (f j)) l s.
Proof.
  revert s. induction l as [|j l IH]; intros s; simpl; [done|].
  destruct (body (f j) s); simpl; [apply IH | done].
Qed.

Lemma for_each_bind {J : Type} (f : J → list I) body (l : list J) s :
  for_each body (l ≫= f) s = for_each (λ j, for_each body (f j)) l s.
Proof.
  revert s. induction l as [|j l IH]; intros s; simpl; [done|].
  rewrite for_each_app. destruct (for_each body (f j) s); simpl; [apply IH | done].
Qed.

(** Iterations that commute pairwise may run in any order. *)
Lemma for_each_Permutation `{!EqDecision I} body l l' :
  (∀ i j s, i ∈ l → j ∈ l → i ≠ j →
     body i s ≫= body j = body j s ≫= body i) →
  l ≡ₚ l' →
  ∀ s, for_each body l s = for_each body l' s.
Proof.
  intros Hcomm Hperm. induction Hperm as [|x l l' Hp IH|x y l|l l' l'' Hp1 IH1 Hp2 IH2];
    intros s; simpl.
  - done.
  - destruct (body x s); simpl; [|done]. apply IH.
    intros i j s' Hi Hj. apply Hcomm; by right.
  - destruct (decide (x = y)) as [->|Hne]; [done|].
    specialize (Hcomm y x s ltac:(left) ltac:(right; left) ltac:(done)).
    transitivity ((body y s ≫= body x) ≫= for_each body l);
      [by destruct (body y s)|].
    rewrite Hcomm. by destruct (body x s).
  - rewrite IH1 by done. apply IH2.
    intros i j s' Hi Hj. apply Hcomm; by rewrite Hp1.
Qed.
End for_each_facts.

(** ** The repacking index *)

Lemma land_shiftl_1_2 i : Z.land (Z.shiftl i 1) 2 = 2 * (i `mod` 2).
Proof.
  change 2 with (Z.shiftl 1 1) at 1.
  rewrite <- Z.shiftl_land, Z.shiftl_mul_pow2 by lia.
  change 1 with (Z.ones 1) at 1. rewrite Z.land_ones by lia.
  change (2 ^ 1) with 2. lia.
Qed.

Lemma land_shiftr_1_1 i : Z.land (Z.shiftr i 1) 1 = (i `div` 2) `mod` 2.
Proof.
  change 1 with (Z.ones 1) at 2. rewrite Z.land_ones by lia.
  by rewrite Z.shiftr_div_pow2 by lia.
Qed.

Lemma land_clear_low2 i : Z.land i (Z.lnot 3) = 4 * (i `div` 4).
Proof.
  change 3 with (Z.ones 2). rewrite <- Z.ldiff_land, Z.ldiff_ones_r by lia.
  rewrite Z.shiftl_mul_pow2, Z.shiftr_div_pow2 by lia. change (2 ^ 2) with 4. lia.
Qed.

Lemma land_mask_32 i :
  0 ≤ i < 2 ^ 32 → Z.land i 4294967292 = 4 * (i `div` 4).
Proof.
  intros Hi. rewrite <- land_clear_low2.
  change 4294967292 with (Z.land (Z.ones 32) (Z.lnot 3)).
  by rewrite Z.land_assoc, Z.land_ones, Z.mod_small by lia.
Qed.

Lemma lor_low_high s q : 0 ≤ s < 4 → Z.lor s (4 * q) = 4 * q + s.
Proof.
  intros Hs. rewrite Z.add_comm. symmetry. apply Z.add_nocarry_lor.
  apply Z.bits_inj'; intros n Hn. rewrite Z.land_spec, Z.bits_0.
  destruct (decide (n < 2)) as [Hlt|Hge].
  - replace (4 * q) with (Z.shiftl q 2)
      by (rewrite Z.shiftl_mul_pow2 by lia; change (2 ^ 2) with 4; lia).
    rewrite (Z.shiftl_spec_low q 2 n) by lia. apply andb_false_r.
  - assert (Z.testbit s n = false) as ->; [|done].
    destruct (decide (s = 0)) as [->|]; [apply Z.bits_0|].
    apply Z.bits_above_log2; [lia|].
    assert (Z.log2 s < 2); [|lia]. apply Z.log2_lt_pow2; lia.
Qed.

Lemma low_bits_bounds i :
  0 ≤ i `mod` 2 < 2 ∧ 0 ≤ (i `div` 2) `mod` 2 < 2.
Proof. split; apply Z.mod_pos_bound; lia. Qed.

Lemma lor_swapped_bits i :
  Z.lor (2 * (i `mod` 2)) ((i `div` 2) `mod` 2)
  = 2 * (i `mod` 2) + (i `div` 2) `mod` 2.
Proof.
  destruct (low_bits_bounds i) as [H0 H1].
  assert (i `mod` 2 = 0 ∨ i `mod` 2 = 1) as [-> | ->] by lia;
  assert ((i `div` 2) `mod` 2 = 0 ∨ (i `div` 2) `mod` 2 = 1) as [-> | ->] by lia;
    done.
Qed.

(** The index, read arithmetically: the block of four is kept and the two
    low bits trade places. *)
Lemma pack_index_arith i :
  0 ≤ i < 2 ^ 32 →
  pack_index i = 4 * (i `div` 4) + 2 * (i `mod` 2) + (i `div` 2) `mod` 2.
Proof.
  intros Hi. unfold pack_index.
  rewrite land_shiftl_1_2, land_shiftr_1_1, land_mask_32, lor_swapped_bits by done.
  destruct (low_bits_bounds i). rewrite lor_low_high; lia.
Qed.

(** The formula of the specification, with [~3] for the mask, denotes the
    same index. *)
Lemma pack_index_spec_formula i :
  0 ≤ i < 2 ^ 32 →
  Z.lor (Z.lor (Z.land (Z.shiftl i 1) 2) (Z.land (Z.shiftr i 1) 1))
        (Z.land i (Z.lnot 3)) = pack_index i.
Proof.
  intros Hi. unfold pack_index. by rewrite land_mask_32, land_clear_low2.
Qed.

Lemma pack_index_cases i :
  0 ≤ i < 2 ^ 32 →
  (i `mod` 4 = 0 ∧ pack_index i = i) ∨
  (i `mod` 4 = 1 ∧ pack_index i = i + 1) ∨
  (i `mod` 4 = 2 ∧ pack_index i = i - 1) ∨
  (i `mod` 4 = 3 ∧ pack_index i = i).
Proof.
  intros Hi. rewrite pack_index_arith by done.
  pose proof (Z.div_mod i 4). pose proof (Z.mod_pos_bound i 4).
  pose proof (Z.div_mod i 2). pose proof (Z.mod_pos_bound i 2).
  pose proof (Z.div_mod (i `div` 2) 2). pose proof (Z.mod_pos_bound (i `div` 2) 2).
  pose proof (Z.div_div i 2 2).
  change (2 * 2) with 4 in *. lia.
Qed.

Lemma pack_index_block (N k i : Z) :
  N = 4 * k → N ≤ 2147483647 → 0 ≤ i < N →
  0 ≤ pack_index i < N ∧ pack_index i `div` 4 = i `div` 4.
Proof.
  intros -> HN Hi. pose proof (Z.div_mod i 4 ltac:(lia)) as Hdm.
  destruct (pack_index_cases i ltac:(lia))
    as [[Hm ->]|[[Hm ->]|[[Hm ->]|[Hm ->]]]]; split; try lia.
  - symmetry. apply (Z.div_unique _ 4 _ 2); lia.
  - symmetry. apply (Z.div_unique _ 4 _ 1); lia.
Qed.

Lemma pack_index_involutive i :
  0 ≤ i < 2 ^ 32 → pack_index (pack_index i) = i.
Proof.
  intros Hi. pose proof (Z.div_mod i 4 ltac:(lia)) as Hdm.
  destruct (pack_index_cases i Hi) as [[Hm Hp]|[[Hm Hp]|[[Hm Hp]|[Hm Hp]]]];
    rewrite Hp; try done.
  - pose proof (Z.div_mod (i + 1) 4 ltac:(lia)).
    destruct (pack_index_cases (i + 1) ltac:(lia))
      as [[Hm' Hp']|[[Hm' Hp']|[[Hm' Hp']|[Hm' Hp']]]]; rewrite Hp'; lia.
  - pose proof (Z.div_mod (i - 1) 4 ltac:(lia)).
    destruct (pack_index_cases (i - 1) ltac:(lia))
      as [[Hm' Hp']|[[Hm' Hp']|[[Hm' Hp']|[Hm' Hp']]]]; rewrite Hp'; lia.
Qed.

(** ** The repacking loop *)

Lemma pack_loop_spec {T : Type} (N k : Z) (l : list T) :
  N = 4 * k → N ≤ INT_MAX → Z.of_nat (length l) = N →
  ∃ out, pack_loop N l = Some out ∧ length out = length l ∧
    ∀ i, 0 ≤ i < N → array_get out i = array_get l (pack_index i).
Proof.
  intros HN Hmax Hlen. unfold INT_MAX in Hmax.
  assert (is_Some (pack_loop N l)) as [out Hout].
  { apply mapM_is_Some_2, Forall_seqZ. intros i Hi. simpl.
    apply array_get_is_Some. rewrite Hlen.
    apply (pack_index_block N k); [done|lia|lia]. }
  exists out. split; [done|].
  apply mapM_Some_1 in Hout.
  apply Forall2_length in Hout as Hl. rewrite length_seqZ in Hl.
  split; [lia|]. intros i Hi.
  destruct (Forall2_lookup_l _ _ _ (Z.to_nat i) i Hout) as (y & Hy & Hget).
  { rewrite lookup_seqZ_lt by lia. f_equal. lia. }
  rewrite Hget. apply array_get_Some. split; [lia|done].
Qed.

(** ** Statements about the conversion pipeline *)

Section conversion.
Context `{NumericLibrary}.

(** C6. [ConvertAndPack<T, T, N, Round>] returns its argument itself,
    for every element type, element count and rounding style: the
    numeric converter is not applied to any element. *)
Theorem ConvertAndPack_same_type_identity
    (T : Element) (N : Z) (Round : FloatRoundStyle) (x : list Value) :
  ConvertAndPack T T N Round x = Some x.
Proof. unfold ConvertAndPack. by rewrite decide_True. Qed.

(** C4. On the float-to-half path, for a fragment of [N = 4 * k]
    elements, element [i] of the result is the down-conversion of source
    element [((i<<1)&2) | ((i>>1)&1) | (i & ~3)]; in particular that
    source element exists and the conversion returns a fragment of [N]
    elements. *)
Theorem ConvertAndPack_half_float_permutation
    (N k : Z) (Round : FloatRoundStyle) (source : list Value) :
  N = 4 * k → N ≤ INT_MAX → Z.of_nat (length source) = N →
  ∃ out,
    ConvertAndPack half_t float N Round source = Some out ∧
    Z.of_nat (length out) = N ∧
    ∀ i, 0 ≤ i < N →
      ∃ x,
        array_get source
          (Z.lor (Z.lor (Z.land (Z.shiftl i 1) 2) (Z.land (Z.shiftr i 1) 1))
                 (Z.land i (Z.lnot 3))) = Some x ∧
        array_get out i = Some (NumericConverter half_t float Round x).
Proof.
  intros HN Hmax Hlen.
  destruct (pack_loop_spec N k source HN Hmax Hlen) as (tmp & Htmp & Hl & Hget).
  exists (NumericArrayConverter half_t float N Round tmp).
  unfold ConvertAndPack, NumericArrayConverter.
  rewrite decide_False, decide_True by done. rewrite Htmp. simpl.
  split; [done|]. split; [rewrite length_fmap; lia|].
  intros i Hi. unfold INT_MAX in Hmax.
  rewrite pack_index_spec_formula by lia.
  destruct (array_get_is_Some tmp i) as [_ [x Hx]]; [lia|].
  exists x. split; [by rewrite <- Hget|].
  apply array_get_Some in Hx as [? Hx]. apply array_get_Some.
  split; [done|]. by rewrite list_lookup_fmap, Hx.
Qed.

(** C5, as the code has it.  [transform] gives A to [ConvertAndPack]
    (identity, general conversion or float-to-half repacking, by the
    types), and gives each half of B to the plain element-wise converter:
    the first [2 * (kElements / 2)] elements of [dst_B] are the
    conversions of the elements of B at the same positions, without
    identity shortcut and without repacking, and the rest of [dst_B] is
    left as it was. *)
Theorem transform_converts_A_packed_B_elementwise
    (op : MmaTensorOp) (dst_A dst_B A B : list Value) :
  transform op dst_A dst_B A B =
    dst_A' ← ConvertAndPack (Operator_ElementA op) (ElementA op)
               (FragmentA_kElements op)
               (PreferredRoundingMode (Operator_ElementA op) (ElementA op)) A;
    Some (dst_A',
          (NumericConverter (Operator_ElementB op) (ElementB op)
             (PreferredRoundingMode (Operator_ElementB op) (ElementB op))
           <$> take (2 * Z.to_nat (FragmentB_kElements op ÷ 2)) B)
          ++ drop (2 * Z.to_nat (FragmentB_kElements op ÷ 2)) dst_B).
Proof.
  unfold transform, NumericArrayConverter.
  destruct (ConvertAndPack _ _ _ _ A) as [dst_A'|]; simpl; [|done].
  do 2 f_equal. rewrite app_assoc. f_equal.
  rewrite <- fmap_app, !Nat.add_0_r, drop_0.
  by rewrite take_take_drop.
Qed.
End conversion.

(** C10. For [N = 4 * k] the index map keeps every index inside its block
    of four ([pack_index i / 4 = i / 4]), fixes the positions 0 and 3 of
    the block, exchanges the positions 1 and 2, and is its own inverse;
    the indices read by the loop are a rearrangement of [0 .. N-1], so
    every source element is read exactly once; repacking twice gives the
    original fragment back. *)
Theorem pack_index_block_involution (N k : Z) :
  N = 4 * k → N ≤ INT_MAX →
  (∀ i, 0 ≤ i < N →
     0 ≤ pack_index i < N ∧
     pack_index i `div` 4 = i `div` 4 ∧
     (i `mod` 4 = 0 → pack_index i = i) ∧
     (i `mod` 4 = 1 → pack_index i = i + 1) ∧
     (i `mod` 4 = 2 → pack_index i = i - 1) ∧
     (i `mod` 4 = 3 → pack_index i = i) ∧
     pack_index (pack_index i) = i) ∧
  pack_index <$> seqZ 0 N ≡ₚ seqZ 0 N ∧
  (∀ (T : Type) (l : list T),
     Z.of_nat (length l) = N → repack l ≫= repack = Some l).
Proof.
  intros HN Hmax.
  assert (∀ i, 0 ≤ i < N → 0 ≤ i < 2 ^ 32) as Hrange
    by (unfold INT_MAX in Hmax; lia).
  split; [|split].
  - intros i Hi.
    destruct (pack_index_block N k i HN ltac:(done) Hi) as [Hb Hd].
    split; [done|]. split; [done|].
    destruct (pack_index_cases i (Hrange i Hi)) as [[Hm Hp]|[[Hm Hp]|[[Hm Hp]|[Hm Hp]]]];
      repeat split; try (intros; lia); by apply pack_index_involutive, Hrange.
  - apply NoDup_Permutation; [|apply NoDup_seqZ|].
    + apply NoDup_fmap_2_strong; [|apply NoDup_seqZ].
      intros x y Hx%elem_of_seqZ Hy%elem_of_seqZ Heq.
      rewrite <- (pack_index_involutive x), <- (pack_index_involutive y), Heq;
        [done|apply Hrange; lia..].
    + intros x. rewrite list_elem_of_fmap. setoid_rewrite elem_of_seqZ. split.
      * intros (y & -> & Hy). pose proof (pack_index_block N k y HN Hmax). lia.
      * intros Hx. exists (pack_index x). split.
        -- symmetry. apply pack_index_involutive, Hrange. lia.
        -- pose proof (pack_index_block N k x HN Hmax). lia.
  - intros T l Hlen. unfold repack. rewrite Hlen.
    destruct (pack_loop_spec N k l HN Hmax Hlen) as (l1 & -> & Hl1 & Hget1).
    simpl. replace (Z.of_nat (length l1)) with N by lia.
    destruct (pack_loop_spec N k l1 HN Hmax ltac:(lia)) as (l2 & -> & Hl2 & Hget2).
    f_equal. apply array_ext; [lia|]. intros i Hi.
    assert (0 ≤ i < N) as Hi' by lia.
    rewrite Hget2 by done.
    rewrite Hget1 by (by apply (pack_index_block N k)).
    by rewrite pack_index_involutive by (by apply Hrange).
Qed.

(** ** The iteration grid *)

Lemma kColumn_max (op : MmaTensorOp) :
  kColumn (MmaIterations op) = Z.max 1 (tile_columns op ÷ kPartitionsN op).
Proof. unfold MmaIterations, tile_columns. simpl. case_decide; lia. Qed.

Lemma kColumn_pos (op : MmaTensorOp) : 1 ≤ kColumn (MmaIterations op).
Proof. rewrite kColumn_max. lia. Qed.

Lemma shape_assertion_divide (op : MmaTensorOp) :
  kM (Operator_Shape op) ≠ 0 → kN (Operator_Shape op) ≠ 0 →
  shape_assertion op = true ↔
    (kM (Operator_Shape op) | kM (Shape op)) ∧
    (kN (Operator_Shape op) | kN (Shape op)).
Proof.
  intros HM HN. unfold shape_assertion.
  rewrite andb_true_iff, !negb_true_iff, !bool_decide_eq_false.
  rewrite <- !Z.rem_divide by done.
  split; intros [H1 H2]; split; first [by apply dec_stable | by intros ?].
Qed.

(** C8. The class, when it builds, has the grid
    [(Shape.M / ElemShape.M, max(1, Shape.N / ElemShape.N / N-partitions))];
    a tile extent that is not a multiple of the operator's extent, in M or
    in N, makes the build fail; and with non-zero divisors and both
    divisibilities the build succeeds.  The check is part of
    instantiation only: the grid itself is defined for every
    configuration. *)
Theorem instantiate_grid_or_reject (op : MmaTensorOp) :
  (∀ grid, instantiate op = Some grid →
     grid = {| kRow := kM (Shape op) ÷ kM (Operator_Shape op);
               kColumn := Z.max 1 (kN (Shape op) ÷ kN (Operator_Shape op)
                                     ÷ kPartitionsN op) |}) ∧
  (¬ (kM (Operator_Shape op) | kM (Shape op)) ∨
   ¬ (kN (Operator_Shape op) | kN (Shape op)) →
     instantiate op = None) ∧
  (kM (Operator_Shape op) ≠ 0 → kN (Operator_Shape op) ≠ 0 →
   kPartitionsN op ≠ 0 →
   (kM (Operator_Shape op) | kM (Shape op)) →
   (kN (Operator_Shape op) | kN (Shape op)) →
     instantiate op = Some (MmaIterations op)) ∧
  MmaIterations op =
    {| kRow := kM (Shape op) ÷ kM (Operator_Shape op);
       kColumn := Z.max 1 (kN (Shape op) ÷ kN (Operator_Shape op)
                             ÷ kPartitionsN op) |}.
Proof.
  assert (MmaIterations op =
    {| kRow := kM (Shape op) ÷ kM (Operator_Shape op);
       kColumn := Z.max 1 (kN (Shape op) ÷ kN (Operator_Shape op)
                             ÷ kPartitionsN op) |}) as Hgrid.
  { pose proof (kColumn_max op) as Hc. unfold tile_columns in Hc.
    rewrite <- Hc. reflexivity. }
  unfold instantiate. repeat split.
  - intros grid. case_decide; [done|].
    destruct (shape_assertion op); [|done]. intros [= <-]. done.
  - intros Hnd. case_decide as Hz; [done|].
    destruct (shape_assertion op) eqn:Ha; [|done].
    apply shape_assertion_divide in Ha; tauto.
  - intros HM HN HP HdM HdN. rewrite decide_False by tauto.
    by rewrite (proj2 (shape_assertion_divide op HM HN)).
  - done.
Qed.

(** ** The calls issued by the loops *)

Lemma loop_body_issued {St : Type} (op : MmaTensorOp)
    (invoke : MmaCall → St → option St) (pidx n ms : Z) (s : St) :
  loop_body op invoke pidx n ms s = invoke (issued_call op pidx (n, ms)) s.
Proof. unfold loop_body, issued_call, slot. simpl. by destruct (AccumulatorsInRowMajor op). Qed.

Lemma for_each_singleton {I St : Type} (body : I → St → option St) i s :
  for_each body [i] s = body i s.
Proof. simpl. by destruct (body i s). Qed.

Lemma mma_loops_calls {St : Type} (op : MmaTensorOp)
    (invoke : MmaCall → St → option St) (pidx : Z) (s : St) :
  mma_loops op invoke pidx s =
    for_each invoke (issued_call op pidx <$> visits op) s.
Proof.
  unfold mma_loops, for_loop, visits.
  rewrite for_each_fmap, for_each_bind. apply for_each_ext. intros n s1 _.
  rewrite for_each_bind. apply for_each_ext. intros m s2 _.
  rewrite for_each_singleton. apply loop_body_issued.
Qed.

Lemma fmap_bind_list {X Y W : Type} (f : Y → W) (g : X → list Y) (l : list X) :
  f <$> (l ≫= g) = l ≫= (λ x, f <$> g x).
Proof.
  induction l as [|x l IH]; [done|].
  change ((x :: l) ≫= g) with (g x ++ (l ≫= g)).
  change ((x :: l) ≫= (λ x, f <$> g x)) with ((f <$> g x) ++ (l ≫= (λ x, f <$> g x))).
  by rewrite fmap_app, IH.
Qed.

Lemma for_each_log {I : Type} (l log : list I) :
  for_each (λ c log', Some (log' ++ [c])) l log = Some (log ++ l).
Proof.
  revert log. induction l as [|c l IH]; intros log; simpl.
  - by rewrite app_nil_r.
  - rewrite IH. by rewrite <- app_assoc.
Qed.

Lemma operator_trace_calls (op : MmaTensorOp) (pidx : Z) :
  operator_trace op pidx = Some (issued_call op pidx <$> visits op).
Proof. unfold operator_trace. by rewrite mma_loops_calls, for_each_log. Qed.

Lemma operator_call_calls `{ArchMma} (op : MmaTensorOp) A B C (pidx : Z) :
  operator_call op A B C pidx =
    for_each (mma_at A B) (issued_call op pidx <$> visits op) C.
Proof. unfold operator_call. apply mma_loops_calls. Qed.

(** ** One call of the primitive *)

Section mma_at_facts.
Context `{ArchMma}.
Implicit Types (A : list MmaOperandA) (B : list MmaOperandB)
  (D : list MmaOperandC) (c : MmaCall).

Lemma mma_at_unfold A B c D :
  mma_at A B c D =
    match array_get A (a_idx c), array_get B (b_idx c),
          array_get D (d_idx c) with
    | Some x, Some y, Some z =>
        Some (<[Z.to_nat (d_idx c) := mma x y z]> D)
    | _, _, _ => None
    end.
Proof.
  unfold mma_at.
  destruct (array_get A _) as [x|]; simpl; [|done].
  destruct (array_get B _) as [y|]; simpl; [|done].
  destruct (array_get D _) as [z|] eqn:Hz; simpl; [|done].
  unfold array_set. rewrite decide_True; [done|].
  by apply array_get_is_Some.
Qed.

Lemma array_get_insert_ne D (i j : Z) (v : MmaOperandC) :
  0 ≤ i → i ≠ j →
  array_get (<[Z.to_nat i := v]> D) j = array_get D j.
Proof.
  intros Hi Hne. unfold array_get. case_decide; [|done].
  apply list_lookup_insert_ne. lia.
Qed.

Lemma array_get_nonneg {T : Type} (l : list T) (i : Z) (x : T) :
  array_get l i = Some x → 0 ≤ i.
Proof. rewrite array_get_Some. tauto. Qed.

(** Calls on different accumulator chunks commute. *)
Lemma mma_at_comm A B c1 c2 D :
  d_idx c1 ≠ d_idx c2 →
  mma_at A B c1 D ≫= mma_at A B c2 = mma_at A B c2 D ≫= mma_at A B c1.
Proof.
  intros Hne. rewrite (mma_at_unfold A B c1 D), (mma_at_unfold A B c2 D).
  destruct (array_get A (a_idx c1)) as [x1|] eqn:Ha1,
           (array_get B (b_idx c1)) as [y1|] eqn:Hb1,
           (array_get D (d_idx c1)) as [z1|] eqn:Hd1,
           (array_get A (a_idx c2)) as [x2|] eqn:Ha2,
           (array_get B (b_idx c2)) as [y2|] eqn:Hb2,
           (array_get D (d_idx c2)) as [z2|] eqn:Hd2;
    simpl; rewrite ?mma_at_unfold, ?Ha1, ?Hb1, ?Ha2, ?Hb2; try done;
    try (apply array_get_nonneg in Hd1 as Hn1);
    try (apply array_get_nonneg in Hd2 as Hn2);
    rewrite ?array_get_insert_ne, ?Hd1, ?Hd2 by done; try done.
  f_equal. apply list_insert_insert_ne. lia.
Qed.
End mma_at_facts.

(** ** The serpentine order *)

Lemma m_serpentine_range (op : MmaTensorOp) (n m : Z) :
  0 ≤ m < kRow (MmaIterations op) →
  0 ≤ m_serpentine op n m < kRow (MmaIterations op).
Proof. unfold m_serpentine. case_decide; lia. Qed.

Lemma m_serpentine_involutive (op : MmaTensorOp) (n m : Z) :
  m_serpentine op n (m_serpentine op n m) = m.
Proof. unfold m_serpentine. case_decide; lia. Qed.

(** In every column the serpentine visits each row once. *)
Lemma m_serpentine_Permutation (op : MmaTensorOp) (n : Z) :
  m_serpentine op n <$> seqZ 0 (kRow (MmaIterations op))
  ≡ₚ seqZ 0 (kRow (MmaIterations op)).
Proof.
  apply NoDup_Permutation; [|apply NoDup_seqZ|].
  - apply NoDup_fmap_2_strong; [|apply NoDup_seqZ].
    intros x y _ _ Heq.
    by rewrite <- (m_serpentine_involutive op n x), Heq, m_serpentine_involutive.
  - intros x. rewrite list_elem_of_fmap. setoid_rewrite elem_of_seqZ. split.
    + intros (y & -> & Hy). pose proof (m_serpentine_range op n y). lia.
    + intros Hx. exists (m_serpentine op n x).
      rewrite m_serpentine_involutive. split; [done|].
      pose proof (m_serpentine_range op n x). lia.
Qed.

Lemma slot_inj_row (op : MmaTensorOp) (pidx n m1 m2 : Z) :
  slot op pidx m1 n = slot op pidx m2 n → m1 = m2.
Proof.
  unfold slot. pose proof (kColumn_pos op).
  destruct (AccumulatorsInRowMajor op); [nia | lia].
Qed.

Section serpentine.
Context `{ArchMma}.

(** One column sweep gives the same accumulators in serpentine and in
    forward order. *)
Lemma column_sweep_order (op : MmaTensorOp) A B (pidx n : Z) D :
  for_loop (kRow (MmaIterations op))
    (λ m, loop_body op (mma_at A B) pidx n (m_serpentine op n m)) D
  = for_loop (kRow (MmaIterations op))
    (λ m, loop_body op (mma_at A B) pidx n m) D.
Proof.
  unfold for_loop.
  rewrite <- (for_each_fmap (m_serpentine op n)
               (loop_body op (mma_at A B) pidx n)).
  apply for_each_Permutation; [|apply m_serpentine_Permutation].
  intros i j s _ _ Hne. rewrite !loop_body_issued.
  etrans; [apply option_bind_ext_fun; intros; apply loop_body_issued|].
  etrans; [|symmetry; apply option_bind_ext_fun; intros; apply loop_body_issued].
  apply mma_at_comm. simpl. intros Heq%slot_inj_row. done.
Qed.

(** C1. For a configuration that builds (the divisibility invariant
    holds), every partition index and all fragments, [operator()] returns
    exactly what the double loop without the serpentine returns from the
    same [D = C]: the same accumulators when the accesses are in range,
    and an out-of-range access in one is an out-of-range access in the
    other. *)
Theorem serpentine_equals_naive (op : MmaTensorOp)
    (A : list MmaOperandA) (B : list MmaOperandB) (C : list MmaOperandC)
    (pidx : Z) :
  is_Some (instantiate op) →
  operator_call op A B C pidx = naive_call op A B C pidx.
Proof.
  intros _. unfold operator_call, naive_call, mma_loops, naive_loops.
  unfold for_loop at 1 3. apply for_each_ext. intros n D _.
  apply column_sweep_order.
Qed.
End serpentine.

(** ** What a sequence of calls on distinct accumulator chunks computes *)

Section calls_result.
Context `{ArchMma}.
Implicit Types (A : list MmaOperandA) (B : list MmaOperandB)
  (C D : list MmaOperandC) (c : MmaCall).

Lemma for_each_mma_at A B (calls : list MmaCall) C :
  NoDup (d_idx <$> calls) →
  (∀ c, c ∈ calls → is_Some (call_value A B C c)) →
  ∃ D, for_each (mma_at A B) calls C = Some D ∧
    length D = length C ∧
    (∀ c, c ∈ calls → array_get D (d_idx c) = call_value A B C c) ∧
    (∀ j, j ∉ d_idx <$> calls → array_get D j = array_get C j).
Proof.
  revert C. induction calls as [|c calls IH]; intros C Hnd Hok.
  { exists C. split; [done|]. split; [done|].
    split; [intros c Hc; by apply elem_of_nil in Hc | done]. }
  rewrite fmap_cons in Hnd. apply list.NoDup_cons in Hnd as [Hfresh Hnd].
  destruct (Hok c ltac:(left)) as [v Hv].
  assert (∃ x y z, array_get A (a_idx c) = Some x ∧
                   array_get B (b_idx c) = Some y ∧
                   array_get C (d_idx c) = Some z ∧ v = mma x y z)
    as (x & y & z & Hx & Hy & Hz & ->).
  { unfold call_value in Hv.
    destruct (array_get A _) as [x|], (array_get B _) as [y|],
             (array_get C _) as [z|]; simplify_eq/=. by exists x, y, z. }
  pose proof (array_get_nonneg _ _ _ Hz) as Hd0.
  set (C1 := <[Z.to_nat (d_idx c) := mma x y z]> C).
  assert (mma_at A B c C = Some C1) as Hstep
    by (by rewrite mma_at_unfold, Hx, Hy, Hz).
  assert (∀ c', d_idx c' ≠ d_idx c → call_value A B C1 c' = call_value A B C c')
    as Hsame.
  { intros c' Hne. unfold call_value, C1.
    by rewrite array_get_insert_ne. }
  assert (∀ c', c' ∈ calls → d_idx c' ≠ d_idx c) as Hother.
  { intros c' Hc' Heq. apply Hfresh. rewrite <- Heq.
    by apply list_elem_of_fmap_2. }
  destruct (IH C1 Hnd) as (D & HD & Hlen & Hcalls & Hrest).
  { intros c' Hc'. rewrite Hsame by auto. apply Hok. by right. }
  exists D. simpl. rewrite Hstep. simpl. split; [done|].
  split; [by rewrite Hlen; apply length_insert|]. split.
  - intros c' [->|Hc']%elem_of_cons.
    + rewrite Hrest by done. rewrite Hv.
      apply array_get_Some. split; [done|].
      apply list_lookup_insert_eq.
      apply array_get_Some in Hz as [_ Hz]. by apply lookup_lt_Some in Hz.
    + rewrite Hcalls by done. auto.
  - intros j Hj. rewrite not_elem_of_cons in Hj.
    destruct Hj as [Hj1 Hj2]. rewrite Hrest by done.
    by apply array_get_insert_ne.
Qed.
(** A sequence of calls that returns a result made all its accesses
    inside the fragments. *)
Lemma for_each_mma_at_in_range A B (calls : list MmaCall) C D :
  for_each (mma_at A B) calls C = Some D →
  ∀ c, c ∈ calls →
    is_Some (array_get A (a_idx c)) ∧ is_Some (array_get B (b_idx c)) ∧
    is_Some (array_get C (d_idx c)).
Proof.
  revert C. induction calls as [|c0 calls IH]; intros C Hrun c Hc.
  { by apply elem_of_nil in Hc. }
  simpl in Hrun. destruct (mma_at A B c0 C) as [C1|] eqn:Hstep; [|done].
  simpl in Hrun. rewrite mma_at_unfold in Hstep.
  destruct (array_get A (a_idx c0)) as [x|] eqn:Hx; [|done].
  destruct (array_get B (b_idx c0)) as [y|] eqn:Hy; [|done].
  destruct (array_get C (d_idx c0)) as [z|] eqn:Hz; [|done].
  injection Hstep as <-.
  apply elem_of_cons in Hc as [->|Hc].
  - rewrite Hx, Hy, Hz. eauto.
  - destruct (IH _ Hrun c Hc) as (Ha & Hb & Hd).
    split; [done|]. split; [done|].
    apply array_get_is_Some. apply array_get_is_Some in Hd.
    by rewrite length_insert in Hd.
Qed.
End calls_result.

(** ** What the driver computes *)

Lemma elem_of_visits (op : MmaTensorOp) (v : Z * Z) :
  v ∈ visits op ↔
    0 ≤ v.1 < kColumn (MmaIterations op) ∧ 0 ≤ v.2 < kRow (MmaIterations op).
Proof.
  unfold visits. rewrite list_elem_of_bind. split.
  - intros (n & (m & ->%list_elem_of_singleton & Hm%elem_of_seqZ)%list_elem_of_bind
              & Hn%elem_of_seqZ).
    cbn [fst snd]. pose proof (m_serpentine_range op n m). lia.
  - destruct v as [n ms]. cbn [fst snd]. intros [Hn Hms]. exists n.
    split; [|apply elem_of_seqZ; lia].
    apply list_elem_of_bind. exists (m_serpentine op n ms).
    rewrite m_serpentine_involutive. split; [by apply list_elem_of_singleton|].
    apply elem_of_seqZ. pose proof (m_serpentine_range op n ms). lia.
Qed.

(** Every sub-tile is visited once. *)
Lemma NoDup_visits (op : MmaTensorOp) : NoDup (visits op).
Proof.
  unfold visits. apply NoDup_bind; [| |apply NoDup_seqZ].
  - intros n1 n2 v _ _
      (m1 & ->%list_elem_of_singleton & _)%list_elem_of_bind
      (m2 & [= -> _]%list_elem_of_singleton & _)%list_elem_of_bind.
    done.
  - intros n _. apply NoDup_bind; [| |apply NoDup_seqZ].
    + intros m1 m2 v _ _ ->%list_elem_of_singleton [= Heq]%list_elem_of_singleton.
      by rewrite <- (m_serpentine_involutive op n m1), Heq,
        m_serpentine_involutive.
    + intros m _. apply NoDup_singleton.
Qed.

(** Different sub-tiles of the grid use different accumulator chunks. *)
Lemma slot_inj (op : MmaTensorOp) (pidx m1 n1 m2 n2 : Z) :
  0 ≤ m1 < kRow (MmaIterations op) → 0 ≤ n1 < kColumn (MmaIterations op) →
  0 ≤ m2 < kRow (MmaIterations op) → 0 ≤ n2 < kColumn (MmaIterations op) →
  slot op pidx m1 n1 = slot op pidx m2 n2 → m1 = m2 ∧ n1 = n2.
Proof.
  unfold slot. intros Hm1 Hn1 Hm2 Hn2.
  destruct (AccumulatorsInRowMajor op); intros Heq.
  - assert (m1 = m2) by nia. subst. lia.
  - assert (n1 = n2) by nia. subst. lia.
Qed.

Lemma NoDup_slots (op : MmaTensorOp) (pidx : Z) :
  NoDup (d_idx <$> (issued_call op pidx <$> visits op)).
Proof.
  rewrite <- list_fmap_compose.
  apply NoDup_fmap_2_strong; [|apply NoDup_visits].
  intros [n1 m1] [n2 m2] [??]%elem_of_visits [??]%elem_of_visits Heq.
  unfold compose, issued_call in Heq. cbn [d_idx fst snd] in *.
  apply slot_inj in Heq as [-> ->]; done.
Qed.

Section driver_result.
Context `{ArchMma}.

(** When every access of the loops is inside its fragment, the driver
    returns accumulators in which the chunk of every sub-tile of the grid
    holds the value of its one call on the initial content, and every
    other chunk is as in [C]. *)
Lemma operator_call_result (op : MmaTensorOp)
    (A : list MmaOperandA) (B : list MmaOperandB) (C : list MmaOperandC)
    (pidx : Z) :
  (∀ m n, 0 ≤ m < kRow (MmaIterations op) →
          0 ≤ n < kColumn (MmaIterations op) →
          is_Some (call_value A B C (issued_call op pidx (n, m)))) →
  ∃ D, operator_call op A B C pidx = Some D ∧
    length D = length C ∧
    (∀ m n, 0 ≤ m < kRow (MmaIterations op) →
            0 ≤ n < kColumn (MmaIterations op) →
            array_get D (slot op pidx m n)
            = call_value A B C (issued_call op pidx (n, m))) ∧
    (∀ j, (∀ m n, 0 ≤ m < kRow (MmaIterations op) →
                  0 ≤ n < kColumn (MmaIterations op) →
                  j ≠ slot op pidx m n) →
          array_get D j = array_get C j).
Proof.
  intros Hok. rewrite operator_call_calls.
  destruct (for_each_mma_at A B (issued_call op pidx <$> visits op) C)
    as (D & HD & Hlen & Hcalls & Hrest).
  { apply NoDup_slots. }
  { intros c (v & -> & [??]%elem_of_visits)%list_elem_of_fmap.
    destruct v as [n m]. by apply Hok. }
  exists D. split; [done|]. split; [done|]. split.
  - intros m n Hm Hn.
    apply (Hcalls (issued_call op pidx (n, m))).
    apply list_elem_of_fmap_2, elem_of_visits. done.
  - intros j Hj. apply Hrest.
    intros (c & -> & (v & -> & [??]%elem_of_visits)%list_elem_of_fmap)%list_elem_of_fmap.
    destruct v as [n m]. by apply (Hj m n).
Qed.
End driver_result.

(** C2, as the code has it.  The calls of the primitive, in the order they
    are issued, are: for [n] from 0 to [cols-1] and [m] from 0 to [rows-1],
    with [ms = m_serpentine], the call on accumulator chunk [idx], A chunk
    [ms] and B chunk [b], where [idx = n + ms*cols] and [b = n] (no
    partition offset) when accumulators are row-major, and
    [idx = ms + (n + n_off)*rows] and [b = n + n_off] otherwise.
    [operator()] performs exactly these calls on [D], each as
    [D[idx] = mma(A[ms], B[b], D[idx])]; and in the fragment it returns,
    chunk [idx] of every visited pair is [mma(A[ms], B[b], C[idx])]. *)
Theorem operator_issues_calls `{ArchMma} (op : MmaTensorOp) (pidx : Z) :
  let rows := kRow (MmaIterations op) in
  let cols := kColumn (MmaIterations op) in
  let idx (n ms : Z) :=
    if AccumulatorsInRowMajor op then n + ms * cols
    else ms + (n + n_off op pidx) * rows in
  let b (n : Z) :=
    if AccumulatorsInRowMajor op then n else n + n_off op pidx in
  let calls :=
    n ← seqZ 0 cols;
    m ← seqZ 0 rows;
    [ {| d_idx := idx n (m_serpentine op n m);
         a_idx := m_serpentine op n m;
         b_idx := b n |} ] in
  operator_trace op pidx = Some calls ∧
  (∀ A B C, operator_call op A B C pidx = for_each (mma_at A B) calls C) ∧
  (∀ A B C D, operator_call op A B C pidx = Some D →
     ∀ n m, 0 ≤ n < cols → 0 ≤ m < rows →
       ∃ x y z,
         array_get A (m_serpentine op n m) = Some x ∧
         array_get B (b n) = Some y ∧
         array_get C (idx n (m_serpentine op n m)) = Some z ∧
         array_get D (idx n (m_serpentine op n m)) = Some (mma x y z)).
Proof.
  intros rows cols idx b calls.
  assert (∀ n ms, issued_call op pidx (n, ms)
                  = {| d_idx := idx n ms; a_idx := ms; b_idx := b n |}) as Hcall.
  { intros n ms. unfold issued_call, slot, idx, b. simpl.
    by destruct (AccumulatorsInRowMajor op). }
  assert (calls = issued_call op pidx <$> visits op) as ->.
  { unfold calls, visits, rows, cols.
    rewrite fmap_bind_list. apply list_bind_ext; [|done]. intros n.
    rewrite fmap_bind_list. apply list_bind_ext; [|done]. intros m.
    simpl. by rewrite Hcall. }
  split; [apply operator_trace_calls|].
  split; [intros; apply operator_call_calls|].
  intros A B C D HD n m Hn Hm.
  pose proof (m_serpentine_range op n m Hm) as Hms.
  assert (∀ n' m', 0 ≤ m' < rows → 0 ≤ n' < cols →
            is_Some (call_value A B C (issued_call op pidx (n', m')))) as Hok.
  { intros n' m' Hm' Hn'. rewrite operator_call_calls in HD.
    destruct (for_each_mma_at_in_range A B _ C D HD (issued_call op pidx (n', m')))
      as ([x Hx] & [y Hy] & [z Hz]).
    { apply list_elem_of_fmap_2, elem_of_visits. done. }
    unfold call_value. rewrite Hx, Hy, Hz. by eexists. }
  destruct (operator_call_result op A B C pidx) as (D' & HD' & _ & Hg & _).
  { intros m' n' Hm' Hn'. by apply Hok. }
  rewrite HD in HD'. injection HD' as <-.
  specialize (Hg (m_serpentine op n m) n Hms Hn).
  destruct (Hok n (m_serpentine op n m) Hms Hn) as [v Hv].
  rewrite Hv in Hg. unfold call_value in Hv. rewrite Hcall in Hv. simpl in Hv.
  destruct (array_get A (m_serpentine op n m)) as [x|]; [|done].
  destruct (array_get B (b n)) as [y|]; [|done].
  destruct (array_get C (idx n (m_serpentine op n m))) as [z|]; [|done].
  simpl in Hv. injection Hv as <-.
  by exists x, y, z.
Qed.

(** ** Row-major and column-major accumulators *)

(** Two arrays of [rows * cols] elements, one the transposed addressing of
    the other, hold the same elements. *)
Lemma transpose_Permutation {T : Type} (rows cols : Z) (l1 l2 : list T) :
  1 ≤ cols →
  Z.of_nat (length l1) = rows * cols →
  Z.of_nat (length l2) = rows * cols →
  (∀ m n, 0 ≤ m < rows → 0 ≤ n < cols →
     array_get l1 (n + m * cols) = array_get l2 (m + n * rows)) →
  l1 ≡ₚ l2.
Proof.
  intros Hcols Hl1 Hl2 Hget. apply Permutation_inj. split; [lia|].
  set (tr := λ i : nat,
    if decide (Z.of_nat i < rows * cols)
    then Z.to_nat (Z.of_nat i `div` cols + (Z.of_nat i `mod` cols) * rows)
    else i).
  assert (∀ i : nat, Z.of_nat i < rows * cols →
            0 ≤ Z.of_nat i `div` cols < rows ∧
            0 ≤ Z.of_nat i `mod` cols < cols ∧
            Z.of_nat i = Z.of_nat i `mod` cols + Z.of_nat i `div` cols * cols)
    as Hsplit.
  { intros i Hi.
    pose proof (Z.div_mod (Z.of_nat i) cols ltac:(lia)).
    pose proof (Z.mod_pos_bound (Z.of_nat i) cols ltac:(lia)).
    assert (0 ≤ Z.of_nat i `div` cols) by (apply Z.div_pos; lia).
    assert (Z.of_nat i `div` cols < rows)
      by (apply Z.div_lt_upper_bound; lia).
    lia. }
  exists tr. split.
  - intros i j. unfold tr.
    destruct (decide (Z.of_nat i < rows * cols)) as [Hi|Hi],
             (decide (Z.of_nat j < rows * cols)) as [Hj|Hj]; intros Heq.
    + destruct (Hsplit i Hi) as (Hm1 & Hn1 & He1).
      destruct (Hsplit j Hj) as (Hm2 & Hn2 & He2).
      apply Z2Nat.inj in Heq; [|nia..].
      assert (Z.of_nat i `mod` cols = Z.of_nat j `mod` cols) as Hn by nia.
      assert (Z.of_nat i `div` cols = Z.of_nat j `div` cols) as Hm by nia.
      apply Nat2Z.inj. rewrite He1, He2, Hn, Hm. done.
    + destruct (Hsplit i Hi) as (Hm1 & Hn1 & He1). nia.
    + destruct (Hsplit j Hj) as (Hm2 & Hn2 & He2). nia.
    + done.
  - intros i. unfold tr. case_decide as Hi.
    + destruct (Hsplit i Hi) as (Hm & Hn & He).
      specialize (Hget _ _ Hm Hn). unfold array_get in Hget.
      rewrite !decide_True in Hget by nia.
      rewrite <- He, Nat2Z.id in Hget. done.
    + rewrite !lookup_ge_None_2 by lia. done.
Qed.

Section layout.
Context `{ArchMma}.

(** C3, as the code has it.  With a zero partition offset, and with
    initial accumulators that are themselves laid out for the layout in
    use (row-major [Cr], column-major [Cc], chunk [n + m*cols] of the
    first being chunk [m + n*rows] of the second), both runs succeed,
    the row-major result holds at chunk [n + m*cols] what the
    column-major result holds at chunk [m + n*rows], and the two results
    are rearrangements of each other. *)
Theorem layouts_agree_up_to_addressing (op : MmaTensorOp)
    (A : list MmaOperandA) (B : list MmaOperandB)
    (Cr Cc : list MmaOperandC) (pidx : Z) :
  let rows := kRow (MmaIterations op) in
  let cols := kColumn (MmaIterations op) in
  n_off op pidx = 0 →
  rows ≤ Z.of_nat (length A) →
  cols ≤ Z.of_nat (length B) →
  Z.of_nat (length Cr) = rows * cols →
  Z.of_nat (length Cc) = rows * cols →
  (∀ m n, 0 ≤ m < rows → 0 ≤ n < cols →
     array_get Cr (n + m * cols) = array_get Cc (m + n * rows)) →
  ∃ Dr Dc,
    operator_call (with_AccumulatorsInRowMajor op true) A B Cr pidx = Some Dr ∧
    operator_call (with_AccumulatorsInRowMajor op false) A B Cc pidx = Some Dc ∧
    (∀ m n, 0 ≤ m < rows → 0 ≤ n < cols →
       array_get Dr (n + m * cols) = array_get Dc (m + n * rows)) ∧
    Dr ≡ₚ Dc.
Proof.
  intros rows cols Hoff HA HB HCr HCc Hin.
  pose proof (kColumn_pos op) as Hcols. fold cols in Hcols.
  set (opr := with_AccumulatorsInRowMajor op true).
  set (opc := with_AccumulatorsInRowMajor op false).
  assert (∀ m n, call_value A B Cr (issued_call opr pidx (n, m))
                 = (x ← array_get A m; y ← array_get B n;
                    z ← array_get Cr (n + m * cols); Some (mma x y z)))
    as Hvr by done.
  assert (∀ m n, call_value A B Cc (issued_call opc pidx (n, m))
                 = (x ← array_get A m; y ← array_get B n;
                    z ← array_get Cc (m + n * rows); Some (mma x y z)))
    as Hvc.
  { intros m n. unfold call_value, issued_call, slot. simpl.
    change (n_off opc pidx) with (n_off op pidx). rewrite Hoff, Z.add_0_r.
    done. }
  assert (∀ m n, 0 ≤ m < rows → 0 ≤ n < cols →
            is_Some (call_value A B Cr (issued_call opr pidx (n, m))))
    as Hokr.
  { intros m n Hm Hn. rewrite Hvr.
    destruct (proj2 (array_get_is_Some A m)) as [x ->]; [lia|].
    destruct (proj2 (array_get_is_Some B n)) as [y ->]; [lia|].
    destruct (proj2 (array_get_is_Some Cr (n + m * cols))) as [z ->]; [nia|].
    by eexists. }
  destruct (operator_call_result opr A B Cr pidx Hokr)
    as (Dr & HDr & Hlr & Hgr & _).
  destruct (operator_call_result opc A B Cc pidx) as (Dc & HDc & Hlc & Hgc & _).
  { intros m n Hm Hn. rewrite Hvc, <- Hin, <- Hvr by done. by apply Hokr. }
  exists Dr, Dc. split; [done|]. split; [done|].
  assert (∀ m n, 0 ≤ m < rows → 0 ≤ n < cols →
            array_get Dr (n + m * cols) = array_get Dc (m + n * rows)) as Hpt.
  { intros m n Hm Hn.
    specialize (Hgr m n Hm Hn). specialize (Hgc m n Hm Hn).
    change (slot opr pidx m n) with (n + m * cols) in Hgr.
    change (slot opc pidx m n) with (m + (n + n_off op pidx) * rows) in Hgc.
    rewrite Hoff, Z.add_0_r in Hgc.
    rewrite Hgr, Hgc, Hvr, Hvc. by rewrite Hin. }
  split; [done|].
  apply (transpose_Permutation rows cols); [done|lia|lia|done].
Qed.
End layout.

(** ** Partitions along N *)

Lemma bind_singleton_fmap {X Y : Type} (g : X → Y) (l : list X) :
  (x ← l; [g x]) = g <$> l.
Proof.
  induction l as [|x l IH]; [done|].
  change (g x :: (x' ← l; [g x']) = g x :: (g <$> l)). by rewrite IH.
Qed.

(** [P] consecutive blocks of [k] indices are the indices below [P * k]. *)
Lemma seqZ_blocks (P k : Z) :
  0 ≤ P → 0 ≤ k →
  (p ← seqZ 0 P; n ← seqZ 0 k; [n + p * k]) = seqZ 0 (P * k).
Proof.
  intros HP Hk. rewrite <- (Z2Nat.id P HP). clear HP.
  induction (Z.to_nat P) as [|P' IH]; [done|].
  rewrite seqZ_S, bind_app, IH.
  replace (Z.of_nat (S P') * k) with (Z.of_nat P' * k + k) by lia.
  rewrite seqZ_app by lia. f_equal.
  change ([0 + Z.of_nat P'] ≫= (λ p, n ← seqZ 0 k; [n + p * k]))
    with ((n ← seqZ 0 k; [n + (0 + Z.of_nat P') * k]) ++ []).
  rewrite app_nil_r, bind_singleton_fmap, !Z.add_0_l.
  transitivity (Z.add (Z.of_nat P' * k) <$> seqZ 0 k).
  - apply list_fmap_ext. intros; lia.
  - by rewrite fmap_add_seqZ, Z.add_0_r.
Qed.

Section partitions.
Context `{ArchMma}.

(** A run with column-major accumulators that covers the tile columns
    [off .. off + cols - 1] returns their values. *)
Lemma column_major_columns (op : MmaTensorOp) A B C (pidx : Z) :
  AccumulatorsInRowMajor op = false →
  Z.of_nat (length A) = kRow (MmaIterations op) →
  0 ≤ n_off op pidx →
  n_off op pidx + kColumn (MmaIterations op) ≤ Z.of_nat (length B) →
  Z.of_nat (length C) = kRow (MmaIterations op) * Z.of_nat (length B) →
  ∀ n, 0 ≤ n < kColumn (MmaIterations op) →
    column_of op pidx (operator_call op A B C pidx) n
    = subtile_value (kRow (MmaIterations op)) A B C (n + n_off op pidx)
        <$> seqZ 0 (kRow (MmaIterations op)).
Proof.
  intros Hcm HA Hoff HB HC n Hn.
  set (rows := kRow (MmaIterations op)) in *.
  set (cols := kColumn (MmaIterations op)) in *.
  assert (∀ m n', call_value A B C (issued_call op pidx (n', m))
                  = subtile_value rows A B C (n' + n_off op pidx) m) as Hv.
  { intros m n'. unfold call_value, issued_call, slot, subtile_value. simpl.
    by rewrite Hcm. }
  destruct (operator_call_result op A B C pidx) as (D & -> & _ & Hg & _).
  { intros m n' Hm Hn'. rewrite Hv. unfold subtile_value.
    destruct (proj2 (array_get_is_Some A m)) as [x ->]; [lia|].
    destruct (proj2 (array_get_is_Some B (n' + n_off op pidx))) as [y ->];
      [fold cols in Hn'; lia|].
    destruct (proj2 (array_get_is_Some C (m + (n' + n_off op pidx) * rows)))
      as [z ->]; [fold rows in Hm; fold cols in Hn'; nia|].
    by eexists. }
  unfold column_of. apply list_fmap_ext. intros i m Hm%lookup_seqZ.
  simpl. rewrite Hg, Hv; [done|lia|done].
Qed.

(** C7, as the code has it.  With column-major accumulators and a number
    of partitions that divides the number of operator-sized columns of
    the tile, the per-partition runs, concatenated along N, give the
    columns of the single run with one partition, on the same A, B and
    C; every entry of these columns is a computed value (no access fails). *)
Theorem partitions_concatenate_column_major (op : MmaTensorOp)
    (A : list MmaOperandA) (B : list MmaOperandB) (C : list MmaOperandC) :
  valid_config op →
  fragments_fit op A B C →
  AccumulatorsInRowMajor op = false →
  (kPartitionsN op | tile_columns op) →
  partitioned_columns op A B C = full_columns op A B C ∧
  Forall (Forall is_Some) (full_columns op A B C).
Proof.
  intros (Hinst & HM & HN & HoM & HoN & HP & HoB & HFB) (HA & HB & HC) Hcm [k Hk].
  set (rows := kRow (MmaIterations op)) in *.
  set (P := kPartitionsN op) in *.
  assert (1 ≤ tile_columns op) as Htc.
  { unfold instantiate in Hinst. case_decide; [by destruct Hinst as [? [=]]|].
    destruct (shape_assertion op) eqn:Ha; [|by destruct Hinst as [? [=]]].
    apply shape_assertion_divide in Ha as [_ [q Hq]]; [|lia..].
    unfold tile_columns. rewrite Hq, Z.quot_mul by lia. nia. }
  assert (1 ≤ k) as Hk1 by nia.
  assert (kColumn (MmaIterations op) = k) as Hcols.
  { rewrite kColumn_max. fold P. rewrite Hk, Z.quot_mul by lia. lia. }
  assert (∀ p, n_off op p = p * k) as Hoff.
  { intros p. unfold n_off. rewrite HFB. fold P.
    rewrite Z.mul_assoc, Z.quot_mul by lia.
    rewrite Hk, Z.mul_assoc, Z.quot_mul by lia. done. }
  set (op1 := with_PartitionsN op 1).
  assert (kColumn (MmaIterations op1) = tile_columns op) as Hcols1.
  { rewrite kColumn_max. change (tile_columns op1) with (tile_columns op).
    change (kPartitionsN op1) with 1. rewrite Z.quot_1_r. lia. }
  assert (n_off op1 0 = 0) as Hoff1 by (by unfold n_off).
  assert (full_columns op A B C =
          (λ c, subtile_value rows A B C c <$> seqZ 0 rows)
            <$> seqZ 0 (tile_columns op)) as Hfull.
  { unfold full_columns. fold op1. rewrite Hcols1.
    apply list_fmap_ext. intros i c Hc%lookup_seqZ.
    rewrite (column_major_columns op1 A B C 0);
      change (kRow (MmaIterations op1)) with rows;
      rewrite ?Hoff1, ?Hcols1, ?Z.add_0_r; try done; try nia. }
  rewrite Hfull. split.
  - unfold partitioned_columns. fold P. rewrite Hcols.
    rewrite Hk, (Z.mul_comm k P), <- seqZ_blocks by lia.
    rewrite !fmap_bind_list. apply Forall_bind_ext, Forall_seqZ. intros p Hp.
    rewrite !fmap_bind_list. apply Forall_bind_ext, Forall_seqZ. intros n Hn.
    simpl. f_equal.
    rewrite (column_major_columns op A B C p); fold rows;
      rewrite ?Hoff, ?Hcols; try done; try nia.
  - apply Forall_fmap, Forall_seqZ. intros c Hc.
    apply Forall_fmap, Forall_seqZ. intros m Hm. simpl.
    unfold subtile_value.
    destruct (proj2 (array_get_is_Some A m)) as [x ->]; [lia|].
    destruct (proj2 (array_get_is_Some B c)) as [y ->]; [lia|].
    destruct (proj2 (array_get_is_Some C (m + c * rows))) as [z ->]; [nia|].
    by eexists.
Qed.
End partitions.

(** ** The 64x64x8 tile on the 16x8x8 operator *)

(** C9. For tile shape (64, 64, 8), operator shape (16, 8, 8), one
    partition and partition index 0, the class builds with the grid of 4
    rows and 8 columns; the driver issues 32 calls; the sub-tiles [(m, n)]
    are visited in the order (0,0) .. (3,0), (3,1) .. (0,1),
    (0,2) .. (3,2), and so on, the row direction alternating with every
    column; no sub-tile is visited twice and the accumulator chunks written
    are the chunks 0 .. 31, each once. *)
Theorem scenario_64x64x8_on_16x8x8 (op : MmaTensorOp) :
  Shape op = {| kM := 64; kN := 64; kK := 8 |} →
  Operator_Shape op = {| kM := 16; kN := 8; kK := 8 |} →
  kPartitionsN op = 1 →
  instantiate op = Some {| kRow := 4; kColumn := 8 |} ∧
  ∃ calls,
    operator_trace op 0 = Some calls ∧
    (∀ (H : ArchMma) A B C,
       operator_call op A B C 0 = for_each (mma_at A B) calls C) ∧
    length calls = 32%nat ∧
    (λ c, (a_idx c, b_idx c)) <$> calls =
      [(0, 0); (1, 0); (2, 0); (3, 0); (3, 1); (2, 1); (1, 1); (0, 1);
       (0, 2); (1, 2); (2, 2); (3, 2); (3, 3); (2, 3); (1, 3); (0, 3);
       (0, 4); (1, 4); (2, 4); (3, 4); (3, 5); (2, 5); (1, 5); (0, 5);
       (0, 6); (1, 6); (2, 6); (3, 6); (3, 7); (2, 7); (1, 7); (0, 7)] ∧
    NoDup ((λ c, (a_idx c, b_idx c)) <$> calls) ∧
    Forall (λ c, d_idx c = slot op 0 (a_idx c) (b_idx c)) calls ∧
    d_idx <$> calls ≡ₚ seqZ 0 32.
Proof.
  destruct op as [S EA EB OS OEA OEB rm P FA FB OB]. simpl.
  intros -> -> ->. split; [done|].
  eexists. split; [apply operator_trace_calls|].
  split; [intros; apply operator_call_calls|].
  destruct rm.
  - split; [by vm_compute|]. split; [by vm_compute|].
    split; [apply (bool_decide_unpack _); by vm_compute|].
    split; [vm_compute; repeat constructor|].
    apply (bool_decide_unpack _); by vm_compute.
  - split; [by vm_compute|]. split; [by vm_compute|].
    split; [apply (bool_decide_unpack _); by vm_compute|].
    split; [vm_compute; repeat constructor|].
    apply (bool_decide_unpack _); by vm_compute.
Qed.

(** * Evaluations on concrete inputs *)

(** C1 at a 2x2 grid: with a non-zero accumulator input the serpentine
    driver and the forward double loop return the same fragment. *)
Lemma serpentine_equals_naive_witness :
  is_Some (instantiate (example_op 2 2 1 false)) ∧
  operator_call (H := Z_mma) (example_op 2 2 1 false)
    [1; 2] [10; 100] [0; 1000; 0; 0] 0
  = naive_call (H := Z_mma) (example_op 2 2 1 false)
      [1; 2] [10; 100] [0; 1000; 0; 0] 0.
Proof.
  split; [by eexists|].
  apply (serpentine_equals_naive (H := Z_mma)). by eexists.
Defined.

(** C2: with row-major accumulators, two partitions and partition index 1
    the offset is 2, and the calls read B chunks 0 and 1, not 2 and 3. *)
Lemma row_major_call_ignores_n_off :
  n_off (example_op 2 4 2 true) 1 = 2 ∧
  operator_trace (example_op 2 4 2 true) 1 =
    Some [ {| d_idx := 0; a_idx := 0; b_idx := 0 |};
           {| d_idx := 2; a_idx := 1; b_idx := 0 |};
           {| d_idx := 3; a_idx := 1; b_idx := 1 |};
           {| d_idx := 1; a_idx := 0; b_idx := 1 |} ] ∧
  operator_trace (example_op 2 4 2 true) 1 ≠
    Some (spec_call (example_op 2 4 2 true) 1
            <$> visits (example_op 2 4 2 true)).
Proof. split; [done|]. split; [done|]. by vm_compute. Qed.

(** C3: on the same fragments the two layouts give different values, for
    partition index 0 with a non-constant accumulator input, and for
    partition index 1 even with a zero accumulator input. *)
Lemma layout_flag_changes_values :
  (∃ Dr Dc,
     operator_call (H := Z_mma) (example_op 2 2 1 true)
       [1; 2] [10; 100] [0; 1000; 0; 0] 0 = Some Dr ∧
     operator_call (H := Z_mma) (example_op 2 2 1 false)
       [1; 2] [10; 100] [0; 1000; 0; 0] 0 = Some Dc ∧
     ¬ Dr ≡ₚ Dc) ∧
  (∃ Dr Dc,
     operator_call (H := Z_mma) (example_op 2 4 2 true)
       [1; 2] [10; 100; 1000; 10000] [0; 0; 0; 0; 0; 0; 0; 0] 1 = Some Dr ∧
     operator_call (H := Z_mma) (example_op 2 4 2 false)
       [1; 2] [10; 100; 1000; 10000] [0; 0; 0; 0; 0; 0; 0; 0] 1 = Some Dc ∧
     ¬ Dr ≡ₚ Dc).
Proof.
  split.
  - exists [10; 1100; 20; 200], [10; 1020; 100; 200].
    split; [done|]. split; [done|].
    intros Hp%(bool_decide_pack _). by vm_compute in Hp.
  - exists [10; 100; 20; 200; 0; 0; 0; 0], [0; 0; 0; 0; 1000; 2000; 10000; 20000].
    split; [done|]. split; [done|].
    intros Hp%(bool_decide_pack _). by vm_compute in Hp.
Qed.

(** C3 at a 2x2 grid, the accumulator input given in each layout. *)
Lemma layouts_agree_up_to_addressing_witness :
  n_off (example_op 2 2 1 false) 0 = 0 ∧
  (∃ Dr Dc,
     operator_call (H := Z_mma)
       (with_AccumulatorsInRowMajor (example_op 2 2 1 false) true)
       [1; 2] [10; 100] [0; 1000; 0; 0] 0 = Some Dr ∧
     operator_call (H := Z_mma)
       (with_AccumulatorsInRowMajor (example_op 2 2 1 false) false)
       [1; 2] [10; 100] [0; 0; 1000; 0] 0 = Some Dc ∧
     (∀ m n, 0 ≤ m < 2 → 0 ≤ n < 2 →
        array_get Dr (n + m * 2) = array_get Dc (m + n * 2)) ∧
     Dr ≡ₚ Dc).
Proof.
  split; [done|].
  apply (layouts_agree_up_to_addressing (H := Z_mma) (example_op 2 2 1 false)
           [1; 2] [10; 100] [0; 1000; 0; 0] [0; 0; 1000; 0] 0);
    try done.
  intros m n Hm Hn.
  change (0 ≤ m < 2) in Hm. change (0 ≤ n < 2) in Hn.
  assert (m = 0 ∨ m = 1) as [-> | ->] by lia;
    assert (n = 0 ∨ n = 1) as [-> | ->] by lia; done.
Defined.

(** C4 on eight elements. *)
Lemma ConvertAndPack_half_float_permutation_witness :
  8 = 4 * 2 ∧ 8 ≤ INT_MAX ∧
  ∃ out,
    ConvertAndPack (H := Z_numeric) half_t float 8 tt
      [11; 22; 33; 44; 55; 66; 77; 88] = Some out ∧
    Z.of_nat (length out) = 8 ∧
    ∀ i, 0 ≤ i < 8 →
      ∃ x,
        array_get [11; 22; 33; 44; 55; 66; 77; 88]
          (Z.lor (Z.lor (Z.land (Z.shiftl i 1) 2) (Z.land (Z.shiftr i 1) 1))
                 (Z.land i (Z.lnot 3))) = Some x ∧
        array_get out i
        = Some (NumericConverter (NumericLibrary := Z_numeric) half_t float tt x).
Proof.
  split; [done|]. split; [done|].
  apply (ConvertAndPack_half_float_permutation (H := Z_numeric) 8 2 tt
           [11; 22; 33; 44; 55; 66; 77; 88]); done.
Defined.

(** C5: for float operands and a half-precision operator, [transform]
    leaves the elements of B in their order, while the rule of
    [ConvertAndPack] would exchange the middle elements of each half. *)
Lemma transform_does_not_repack_B :
  transform (H := Z_numeric) example_float_op [0; 0; 0; 0]
    [0; 0; 0; 0; 0; 0; 0; 0] [8; 16; 24; 32] [8; 16; 24; 32; 40; 48; 56; 64]
  = Some ([8; 24; 16; 32], [8; 16; 24; 32; 40; 48; 56; 64]) ∧
  spec_transform (H := Z_numeric) example_float_op [0; 0; 0; 0]
    [0; 0; 0; 0; 0; 0; 0; 0] [8; 16; 24; 32] [8; 16; 24; 32; 40; 48; 56; 64]
  = Some ([8; 24; 16; 32], [8; 24; 16; 32; 40; 56; 48; 64]) ∧
  transform (H := Z_numeric) example_float_op [0; 0; 0; 0]
    [0; 0; 0; 0; 0; 0; 0; 0] [8; 16; 24; 32] [8; 16; 24; 32; 40; 48; 56; 64]
  ≠ spec_transform (H := Z_numeric) example_float_op [0; 0; 0; 0]
      [0; 0; 0; 0; 0; 0; 0; 0] [8; 16; 24; 32] [8; 16; 24; 32; 40; 48; 56; 64].
Proof. split; [done|]. split; [done|]. by vm_compute. Qed.

Lemma valid_example_op (rows cols P : Z) (rm : bool) :
  0 < rows → 0 < cols → 1 ≤ P → valid_config (example_op rows cols P rm).
Proof.
  intros Hr Hc HP. unfold valid_config, tile_columns. simpl.
  rewrite (Z.mul_comm 8 cols), Z.quot_mul by lia.
  split; [|repeat split; lia].
  unfold instantiate. simpl. rewrite decide_False by lia.
  unfold shape_assertion. simpl.
  rewrite (Z.mul_comm 16 rows), (Z.mul_comm 8 cols), !Z.rem_mul by lia.
  by eexists.
Qed.

(** C7: with row-major accumulators every partition computes the same
    columns from the same data; with column-major accumulators and two
    partitions over three columns the last column is never computed. *)
Lemma partitions_do_not_concatenate :
  (valid_config (example_op 2 2 2 true) ∧
   fragments_fit (example_op 2 2 2 true) [1; 2] [10; 100] [0; 0; 0; 0] ∧
   partitioned_columns (H := Z_mma) (example_op 2 2 2 true)
     [1; 2] [10; 100] [0; 0; 0; 0]
   ≠ full_columns (H := Z_mma) (example_op 2 2 2 true)
       [1; 2] [10; 100] [0; 0; 0; 0]) ∧
  (valid_config (example_op 2 3 2 false) ∧
   fragments_fit (example_op 2 3 2 false)
     [1; 2] [10; 100; 1000] [0; 0; 0; 0; 0; 0] ∧
   partitioned_columns (H := Z_mma) (example_op 2 3 2 false)
     [1; 2] [10; 100; 1000] [0; 0; 0; 0; 0; 0]
   ≠ full_columns (H := Z_mma) (example_op 2 3 2 false)
       [1; 2] [10; 100; 1000] [0; 0; 0; 0; 0; 0]).
Proof.
  split; (split; [by apply valid_example_op|]); (split; [done|]); by vm_compute.
Qed.

(** C7 with two partitions over four columns. *)
Lemma partitions_concatenate_column_major_witness :
  valid_config (example_op 2 4 2 false) ∧
  fragments_fit (example_op 2 4 2 false)
    [1; 2] [10; 100; 1000; 10000] [1; 2; 3; 4; 5; 6; 7; 8] ∧
  (kPartitionsN (example_op 2 4 2 false) | tile_columns (example_op 2 4 2 false)) ∧
  partitioned_columns (H := Z_mma) (example_op 2 4 2 false)
    [1; 2] [10; 100; 1000; 10000] [1; 2; 3; 4; 5; 6; 7; 8]
  = full_columns (H := Z_mma) (example_op 2 4 2 false)
      [1; 2] [10; 100; 1000; 10000] [1; 2; 3; 4; 5; 6; 7; 8] ∧
  Forall (Forall is_Some)
    (full_columns (H := Z_mma) (example_op 2 4 2 false)
       [1; 2] [10; 100; 1000; 10000] [1; 2; 3; 4; 5; 6; 7; 8]).
Proof.
  assert (valid_config (example_op 2 4 2 false)) as Hv
    by (by apply valid_example_op).
  assert (kPartitionsN (example_op 2 4 2 false)
          | tile_columns (example_op 2 4 2 false)) as Hd by (by exists 2).
  split; [done|]. split; [done|]. split; [done|].
  by apply (partitions_concatenate_column_major (H := Z_mma)).
Defined.

(** C9 at a configuration with column-major accumulators. *)
Lemma scenario_64x64x8_on_16x8x8_witness :
  Shape (example_op 4 8 1 false) = {| kM := 64; kN := 64; kK := 8 |} ∧
  Operator_Shape (example_op 4 8 1 false) = {| kM := 16; kN := 8; kK := 8 |} ∧
  kPartitionsN (example_op 4 8 1 false) = 1 ∧
  instantiate (example_op 4 8 1 false) = Some {| kRow := 4; kColumn := 8 |} ∧
  ∃ calls,
    operator_trace (example_op 4 8 1 false) 0 = Some calls ∧
    (∀ (H : ArchMma) A B C,
       operator_call (example_op 4 8 1 false) A B C 0
       = for_each (mma_at A B) calls C) ∧
    length calls = 32%nat ∧
    (λ c, (a_idx c, b_idx c)) <$> calls =
      [(0, 0); (1, 0); (2, 0); (3, 0); (3, 1); (2, 1); (1, 1); (0, 1);
       (0, 2); (1, 2); (2, 2); (3, 2); (3, 3); (2, 3); (1, 3); (0, 3);
       (0, 4); (1, 4); (2, 4); (3, 4); (3, 5); (2, 5); (1, 5); (0, 5);
       (0, 6); (1, 6); (2, 6); (3, 6); (3, 7); (2, 7); (1, 7); (0, 7)] ∧
    NoDup ((λ c, (a_idx c, b_idx c)) <$> calls) ∧
    Forall (λ c, d_idx c = slot (example_op 4 8 1 false) 0 (a_idx c) (b_idx c))
      calls ∧
    d_idx <$> calls ≡ₚ seqZ 0 32.
Proof.
  split; [done|]. split; [done|]. split; [done|].
  by apply (scenario_64x64x8_on_16x8x8 (example_op 4 8 1 false)).
Defined.

(** C10 on eight elements. *)
Lemma pack_index_block_involution_witness :
  8 = 4 * 2 ∧ 8 ≤ INT_MAX ∧
  (∀ i, 0 ≤ i < 8 →
     0 ≤ pack_index i < 8 ∧
     pack_index i `div` 4 = i `div` 4 ∧
     (i `mod` 4 = 0 → pack_index i = i) ∧
     (i `mod` 4 = 1 → pack_index i = i + 1) ∧
     (i `mod` 4 = 2 → pack_index i = i - 1) ∧
     (i `mod` 4 = 3 → pack_index i = i) ∧
     pack_index (pack_index i) = i) ∧
  pack_index <$> seqZ 0 8 ≡ₚ seqZ 0 8 ∧
  (∀ (T : Type) (l : list T),
     Z.of_nat (length l) = 8 → repack l ≫= repack = Some l).
Proof.
  split; [done|]. split; [done|].
  by apply (pack_index_block_involution 8 2).
Defined.

(** * Further properties of the conversion helpers *)

Section conversion_more.
Context `{NumericLibrary}.

(** X1. Every path of [ConvertAndPack] keeps the element count: a result
    for a source of [N] elements has [N] elements. *)
Theorem ConvertAndPack_preserves_length
    (T S : Element) (N : Z) (Round : FloatRoundStyle)
    (source out : list Value) :
  Z.of_nat (length source) = N →
  ConvertAndPack T S N Round source = Some out →
  length out = length source.
Proof.
  intros Hlen. unfold ConvertAndPack, NumericArrayConverter.
  case_decide; [by intros [= <-]|].
  case_decide; [|intros [= <-]; apply length_fmap].
  destruct (pack_loop N source) as [tmp|] eqn:Htmp; [|done].
  simpl. intros [= <-]. rewrite length_fmap.
  apply length_mapM in Htmp. rewrite length_seqZ in Htmp. lia.
Qed.

(** X2. On the float-to-half path the loop stays inside the source exactly
    when the element count is not 2 modulo 4: for such a count the last
    index of the form [4q + 1] would read element [4q + 2 = N]. *)
Theorem ConvertAndPack_half_float_in_bounds_iff
    (N : Z) (Round : FloatRoundStyle) (source : list Value) :
  Z.of_nat (length source) = N → N ≤ INT_MAX →
  is_Some (ConvertAndPack half_t float N Round source) ↔ N `mod` 4 ≠ 2.
Proof.
  intros Hlen Hmax. unfold INT_MAX in Hmax.
  assert (is_Some (ConvertAndPack half_t float N Round source)
          ↔ is_Some (pack_loop N source)) as ->.
  { unfold ConvertAndPack. rewrite decide_False, decide_True by done.
    destruct (pack_loop N source); simpl; split; intros [? ?]; eauto; done. }
  unfold pack_loop. rewrite mapM_is_Some, Forall_seqZ.
  pose proof (Z.div_mod N 4 ltac:(lia)) as HN.
  pose proof (Z.mod_pos_bound N 4 ltac:(lia)) as HNb.
  split.
  - intros Hall Hmod.
    specialize (Hall (N - 1) ltac:(lia)). simpl in Hall.
    apply array_get_is_Some in Hall. rewrite Hlen in Hall.
    pose proof (Z.div_mod (N - 1) 4 ltac:(lia)).
    pose proof (Z.mod_pos_bound (N - 1) 4 ltac:(lia)).
    destruct (pack_index_cases (N - 1) ltac:(lia))
      as [[Hm Hp]|[[Hm Hp]|[[Hm Hp]|[Hm Hp]]]]; lia.
  - intros Hmod i Hi. simpl. apply array_get_is_Some. rewrite Hlen.
    pose proof (Z.div_mod i 4 ltac:(lia)).
    pose proof (Z.mod_pos_bound i 4 ltac:(lia)).
    destruct (pack_index_cases i ltac:(lia))
      as [[Hm Hp]|[[Hm Hp]|[[Hm Hp]|[Hm Hp]]]]; lia.
Qed.
End conversion_more.

(** The repacking loop rearranges the elements of a fragment of [4 * k]
    elements. *)
Lemma pack_loop_Permutation {T : Type} (N k : Z) (l tmp : list T) :
  N = 4 * k → N ≤ INT_MAX → Z.of_nat (length l) = N →
  pack_loop N l = Some tmp → tmp ≡ₚ l.
Proof.
  intros HN Hmax Hlen Htmp.
  destruct (pack_loop_spec N k l HN Hmax Hlen) as (tmp' & Htmp' & Hl & Hget).
  rewrite Htmp in Htmp'. injection Htmp' as <-.
  assert (∀ i, 0 ≤ i < N → 0 ≤ i < 2 ^ 32) as Hrange
    by (unfold INT_MAX in Hmax; lia).
  apply Permutation_inj. split; [done|].
  exists (λ i : nat,
    if decide (Z.of_nat i < N) then Z.to_nat (pack_index (Z.of_nat i)) else i).
  split.
  - intros i j.
    destruct (decide (Z.of_nat i < N)) as [Hi|Hi],
             (decide (Z.of_nat j < N)) as [Hj|Hj]; intros Heq.
    + pose proof (pack_index_block N k (Z.of_nat i) HN Hmax ltac:(lia)).
      pose proof (pack_index_block N k (Z.of_nat j) HN Hmax ltac:(lia)).
      apply Z2Nat.inj in Heq; [|lia..].
      apply Nat2Z.inj.
      rewrite <- (pack_index_involutive (Z.of_nat i)),
              <- (pack_index_involutive (Z.of_nat j)), Heq;
        [done|apply Hrange; lia..].
    + pose proof (pack_index_block N k (Z.of_nat i) HN Hmax ltac:(lia)). lia.
    + pose proof (pack_index_block N k (Z.of_nat j) HN Hmax ltac:(lia)). lia.
    + done.
  - intros i. case_decide as Hi.
    + specialize (Hget (Z.of_nat i) ltac:(lia)). unfold array_get in Hget.
      pose proof (pack_index_block N k (Z.of_nat i) HN Hmax ltac:(lia)).
      rewrite !decide_True, Nat2Z.id in Hget by lia. done.
    + rewrite !lookup_ge_None_2 by lia. done.
Qed.

Section conversion_multiset.
Context `{NumericLibrary}.

(** X3. On the float-to-half path, for a fragment of [4 * k] elements, the
    result holds the conversions of the source elements, each exactly
    once: it is a rearrangement of the element-wise conversion of the
    source. *)
Theorem ConvertAndPack_half_float_Permutation
    (N k : Z) (Round : FloatRoundStyle) (source : list Value) :
  N = 4 * k → N ≤ INT_MAX → Z.of_nat (length source) = N →
  ∃ out,
    ConvertAndPack half_t float N Round source = Some out ∧
    out ≡ₚ NumericConverter half_t float Round <$> source.
Proof.
  intros HN Hmax Hlen.
  destruct (pack_loop_spec N k source HN Hmax Hlen) as (tmp & Htmp & _ & _).
  exists (NumericArrayConverter half_t float N Round tmp).
  unfold ConvertAndPack. rewrite decide_False, decide_True by done.
  rewrite Htmp. split; [done|].
  unfold NumericArrayConverter. apply fmap_Permutation.
  by apply (pack_loop_Permutation N k).
Qed.

(** X4. [transform] keeps the element count of [dst_B], and writes only
    its first [2 * (kElements / 2)] elements: every later element keeps
    the value it had; for an odd [FragmentB::kElements] this is the last
    element, whose source element is never converted. *)
Theorem transform_leaves_odd_tail
    (op : MmaTensorOp) (dst_A dst_B A B dA dB : list Value) :
  Z.of_nat (length B) = FragmentB_kElements op →
  length dst_B = length B →
  transform op dst_A dst_B A B = Some (dA, dB) →
  length dB = length dst_B ∧
  (∀ i, 2 * (FragmentB_kElements op ÷ 2) ≤ i →
     array_get dB i = array_get dst_B i) ∧
  (FragmentB_kElements op `rem` 2 = 1 →
     array_get dB (FragmentB_kElements op - 1)
     = array_get dst_B (FragmentB_kElements op - 1)).
Proof.
  intros HB Hdst Htr. unfold transform, NumericArrayConverter in Htr.
  destruct (ConvertAndPack _ _ _ _ A) as [dA'|]; simpl in Htr; [|done].
  injection Htr as <- <-.
  set (kE := FragmentB_kElements op) in *.
  set (h := Z.to_nat (kE ÷ 2)).
  assert (0 ≤ kE) as HkE by lia.
  assert (kE ÷ 2 = kE `div` 2) as Hq by (apply Z.quot_div_nonneg; lia).
  pose proof (Z.div_mod kE 2 ltac:(lia)) as Hdm.
  pose proof (Z.mod_pos_bound kE 2 ltac:(lia)) as Hmb.
  assert (Z.of_nat h = kE `div` 2) as Hh by (unfold h; lia).
  rewrite drop_0, !Nat.add_0_r.
  set (b0 := NumericConverter (Operator_ElementB op) (ElementB op)
               (PreferredRoundingMode (Operator_ElementB op) (ElementB op))
             <$> take h B).
  set (b1 := NumericConverter (Operator_ElementB op) (ElementB op)
               (PreferredRoundingMode (Operator_ElementB op) (ElementB op))
             <$> take h (drop h B)).
  assert (length b0 = h) as Hb0
    by (unfold b0; rewrite length_fmap, length_take; lia).
  assert (length b1 = h) as Hb1
    by (unfold b1; rewrite length_fmap, length_take, length_drop; lia).
  assert (∀ i, 2 * (kE ÷ 2) ≤ i →
            array_get (b0 ++ b1 ++ drop (h + h) dst_B) i = array_get dst_B i)
    as Htail.
  { intros i Hi. unfold array_get. case_decide; [|done].
    rewrite lookup_app_r by lia. rewrite lookup_app_r by lia.
    rewrite lookup_drop. f_equal. lia. }
  split; [|split].
  - rewrite !length_app, length_drop. lia.
  - done.
  - intros Hodd. apply Htail.
    rewrite Z.rem_mod_nonneg in Hodd by lia. lia.
Qed.
End conversion_multiset.

(** * Further properties of the grid and the driver *)

(** X5. A configuration that builds is tiled exactly by the operator: the
    grid rows times the operator's M extent give the tile's M extent, the
    operator-sized columns times the operator's N extent give the tile's N
    extent, and the grid has at least one column. *)
Theorem instantiate_tiles_exactly (op : MmaTensorOp) (grid : MatrixShape) :
  instantiate op = Some grid →
  kRow grid * kM (Operator_Shape op) = kM (Shape op) ∧
  tile_columns op * kN (Operator_Shape op) = kN (Shape op) ∧
  1 ≤ kColumn grid.
Proof.
  unfold instantiate. case_decide as Hz; [done|].
  destruct (shape_assertion op) eqn:Ha; [|done]. intros [= <-].
  apply shape_assertion_divide in Ha as [[q Hq] [r Hr]]; [|tauto..].
  split; [|split].
  - simpl. rewrite Hq, Z.quot_mul by tauto. done.
  - unfold tile_columns. rewrite Hr, Z.quot_mul by tauto. done.
  - apply kColumn_pos.
Qed.

Section driver_more.
Context `{ArchMma}.
Implicit Types (A : list MmaOperandA) (B : list MmaOperandB)
  (C D : list MmaOperandC).

Lemma call_value_is_Some A B C (c : MmaCall) :
  is_Some (call_value A B C c) ↔
    is_Some (array_get A (a_idx c)) ∧ is_Some (array_get B (b_idx c)) ∧
    is_Some (array_get C (d_idx c)).
Proof.
  unfold call_value. split.
  - intros [v Hv].
    destruct (array_get A _), (array_get B _), (array_get C _);
      simplify_eq/=; eauto.
  - intros ([x ->] & [y ->] & [z ->]). by eexists.
Qed.

(** What a run that returns a result has done. *)
Lemma operator_call_Some_inv (op : MmaTensorOp) A B C (pidx : Z) D :
  operator_call op A B C pidx = Some D →
  length D = length C ∧
  (∀ m n, 0 ≤ m < kRow (MmaIterations op) →
          0 ≤ n < kColumn (MmaIterations op) →
     is_Some (call_value A B C (issued_call op pidx (n, m))) ∧
     array_get D (slot op pidx m n)
     = call_value A B C (issued_call op pidx (n, m))) ∧
  (∀ j, (∀ m n, 0 ≤ m < kRow (MmaIterations op) →
                0 ≤ n < kColumn (MmaIterations op) →
                j ≠ slot op pidx m n) →
        array_get D j = array_get C j).
Proof.
  intros HD.
  assert (∀ m n, 0 ≤ m < kRow (MmaIterations op) →
                 0 ≤ n < kColumn (MmaIterations op) →
            is_Some (call_value A B C (issued_call op pidx (n, m)))) as Hok.
  { intros m n Hm Hn. rewrite operator_call_calls in HD.
    apply call_value_is_Some.
    apply (for_each_mma_at_in_range A B _ C D HD).
    apply list_elem_of_fmap_2, elem_of_visits. done. }
  destruct (operator_call_result op A B C pidx Hok) as (D' & HD' & Hl & Hg & Hr).
  rewrite HD in HD'. injection HD' as <-.
  split; [done|]. split; [|done]. intros m n Hm Hn. split; auto.
Qed.

(** X6. [operator()] keeps the number of accumulator chunks, and changes
    no chunk other than those of the sub-tiles of its grid; with
    column-major accumulators these are the chunks of the columns
    [n_off .. n_off + cols - 1], so a run for one partition leaves the
    columns of every other partition as they were in [C]. *)
Theorem operator_call_frame (op : MmaTensorOp) A B C (pidx : Z) D :
  operator_call op A B C pidx = Some D →
  length D = length C ∧
  (∀ j, (∀ m n, 0 ≤ m < kRow (MmaIterations op) →
                0 ≤ n < kColumn (MmaIterations op) →
                j ≠ slot op pidx m n) →
        array_get D j = array_get C j) ∧
  (AccumulatorsInRowMajor op = false →
   ∀ j, j < n_off op pidx * kRow (MmaIterations op) ∨
        (n_off op pidx + kColumn (MmaIterations op)) * kRow (MmaIterations op) ≤ j →
        array_get D j = array_get C j).
Proof.
  intros HD. destruct (operator_call_Some_inv op A B C pidx D HD) as (Hl & _ & Hr).
  split; [done|]. split; [done|].
  intros Hcm j Hj. apply Hr. intros m n Hm Hn. unfold slot. rewrite Hcm. nia.
Qed.


(** X8. Two runs in a row, the second taking the result of the first as
    its accumulator input (the way a loop over K uses the driver),
    accumulate: the chunk of every sub-tile of the grid ends as
    [mma(A'[m], B'[b], mma(A[m], B[b], C[idx]))]. *)
Theorem operator_call_chained (op : MmaTensorOp)
    A B A' B' C (pidx : Z) D1 D2 :
  operator_call op A B C pidx = Some D1 →
  operator_call op A' B' D1 pidx = Some D2 →
  ∀ m n, 0 ≤ m < kRow (MmaIterations op) →
         0 ≤ n < kColumn (MmaIterations op) →
    let b := if AccumulatorsInRowMajor op then n else n + n_off op pidx in
    ∃ x y x' y' z,
      array_get A m = Some x ∧ array_get B b = Some y ∧
      array_get A' m = Some x' ∧ array_get B' b = Some y' ∧
      array_get C (slot op pidx m n) = Some z ∧
      array_get D2 (slot op pidx m n) = Some (mma x' y' (mma x y z)).
Proof.
  intros H1 H2 m n Hm Hn b.
  destruct (operator_call_Some_inv op A B C pidx D1 H1) as (_ & Hg1 & _).
  destruct (operator_call_Some_inv op A' B' D1 pidx D2 H2) as (_ & Hg2 & _).
  destruct (Hg1 m n Hm Hn) as [[v1 Hv1] Hd1].
  destruct (Hg2 m n Hm Hn) as [[v2 Hv2] Hd2].
  rewrite Hv2 in Hd2. rewrite Hv1 in Hd1.
  unfold call_value, issued_call in Hv1, Hv2.
  cbn [a_idx b_idx d_idx fst snd] in Hv1, Hv2. fold b in Hv1, Hv2.
  rewrite Hd1 in Hv2.
  destruct (array_get A m) as [x|]; [|done].
  destruct (array_get B b) as [y|]; [|done].
  destruct (array_get C (slot op pidx m n)) as [z|]; [|done].
  destruct (array_get A' m) as [x'|]; [|done].
  destruct (array_get B' b) as [y'|]; [|done].
  simpl in Hv1, Hv2. injection Hv1 as <-. injection Hv2 as <-.
  by exists x, y, x', y', z.
Qed.
End driver_more.

(** ** Partition indices and fragment bounds *)

Lemma valid_config_facts (op : MmaTensorOp) :
  valid_config op →
  1 ≤ kRow (MmaIterations op) ∧ 1 ≤ tile_columns op ∧
  kColumn (MmaIterations op)
  = Z.max 1 (tile_columns op `div` kPartitionsN op) ∧
  ∀ p, 0 ≤ p →
    n_off op p = (p * tile_columns op) `div` kPartitionsN op.
Proof.
  intros (Hinst & HM & HN & HoM & HoN & HP & HoB & HFB).
  unfold instantiate in Hinst. case_decide; [by destruct Hinst as [? [=]]|].
  destruct (shape_assertion op) eqn:Ha; [|by destruct Hinst as [? [=]]].
  apply shape_assertion_divide in Ha as [[q Hq] [r Hr]]; [|lia..].
  assert (1 ≤ tile_columns op) as Htc
    by (unfold tile_columns; rewrite Hr, Z.quot_mul by lia; nia).
  split; [simpl; rewrite Hq, Z.quot_mul by lia; nia|].
  split; [done|]. split.
  - rewrite kColumn_max, Z.quot_div_nonneg by lia. done.
  - intros p Hp. unfold n_off. rewrite HFB, Z.mul_assoc, Z.quot_mul by lia.
    apply Z.quot_div_nonneg; nia.
Qed.

Section bounds.
Context `{ArchMma}.

(** X9. For a configuration that builds, fragments of the sizes the tile
    iterators deliver and a partition index in [0, kPartitionsN), every
    access of [operator()] is inside its fragment, for either accumulator
    layout and also when the number of partitions does not divide, or
    exceeds, the number of columns: the run returns a result. *)
Theorem operator_call_in_bounds (op : MmaTensorOp)
    (A : list MmaOperandA) (B : list MmaOperandB) (C : list MmaOperandC)
    (pidx : Z) :
  valid_config op → fragments_fit op A B C →
  0 ≤ pidx < kPartitionsN op →
  is_Some (operator_call op A B C pidx).
Proof.
  intros Hv (HA & HB & HC) Hp.
  destruct (valid_config_facts op Hv) as (Hrows & Htc & Hcols & Hoff).
  destruct Hv as (_ & _ & _ & _ & _ & HP & _ & _).
  set (rows := kRow (MmaIterations op)) in *.
  set (cols := kColumn (MmaIterations op)) in *.
  set (tc := tile_columns op) in *.
  set (P := kPartitionsN op) in *.
  specialize (Hoff pidx ltac:(lia)).
  pose proof (Z.div_mod (pidx * tc) P ltac:(lia)) as Hd1.
  pose proof (Z.mod_pos_bound (pidx * tc) P ltac:(lia)) as Hb1.
  pose proof (Z.div_mod tc P ltac:(lia)) as Hd2.
  pose proof (Z.mod_pos_bound tc P ltac:(lia)) as Hb2.
  assert (0 ≤ tc `div` P) as Hq2 by (apply Z.div_pos; lia).
  assert (0 ≤ n_off op pidx) as Hoff0
    by (rewrite Hoff; apply Z.div_pos; nia).
  assert (cols ≤ tc) as Hcle by nia.
  assert (n_off op pidx + cols ≤ tc) as Hfit.
  { rewrite Hoff, Hcols.
    destruct (Z.max_spec 1 (tc `div` P)) as [[? ->]|[? ->]]; nia. }
  destruct (operator_call_result op A B C pidx) as (D & -> & _); [|by eexists].
  intros m n Hm Hn. fold rows in Hm. fold cols in Hn.
  unfold call_value, issued_call, slot. cbn [a_idx b_idx d_idx fst snd].
  fold rows cols.
  destruct (proj2 (array_get_is_Some A m)) as [x ->]; [lia|].
  destruct (AccumulatorsInRowMajor op).
  - destruct (proj2 (array_get_is_Some B n)) as [y ->]; [lia|].
    destruct (proj2 (array_get_is_Some C (n + m * cols))) as [z ->]; [nia|].
    by eexists.
  - destruct (proj2 (array_get_is_Some B (n + n_off op pidx))) as [y ->]; [lia|].
    destruct (proj2 (array_get_is_Some C (m + (n + n_off op pidx) * rows)))
      as [z ->]; [nia|].
    by eexists.
Qed.

End bounds.

(** ** The schedule of the calls *)

Lemma length_bind_blocks {X Y : Type} (f : X → list Y) (l : list X) (r : nat) :
  (∀ x, length (f x) = r) → length (l ≫= f) = (length l * r)%nat.
Proof.
  intros Hf. induction l as [|x l IH]; [done|].
  change ((x :: l) ≫= f) with (f x ++ (l ≫= f)).
  rewrite length_app, IH, Hf. simpl. lia.
Qed.

Lemma length_grid {X : Type} (g : Z → Z → X) (cols rows : Z) :
  length (n ← seqZ 0 cols; m ← seqZ 0 rows; [g n m])
  = (Z.to_nat cols * Z.to_nat rows)%nat.
Proof.
  rewrite (length_bind_blocks _ _ (Z.to_nat rows)), length_seqZ; [done|].
  intros n. by rewrite bind_singleton_fmap, length_fmap, length_seqZ.
Qed.

(** Element [k] of a column-by-column enumeration. *)
Lemma lookup_grid {X : Type} (g : Z → Z → X) (cols rows k : Z) :
  0 ≤ k < cols * rows → 0 < rows →
  array_get (n ← seqZ 0 cols; m ← seqZ 0 rows; [g n m]) k
  = Some (g (k `div` rows) (k `mod` rows)).
Proof.
  intros Hk Hrows. assert (0 ≤ cols) as Hcols by nia.
  revert Hk. rewrite <- (Z2Nat.id cols Hcols). clear Hcols.
  induction (Z.to_nat cols) as [|c IH]; intros Hk; [lia|].
  rewrite seqZ_S, bind_app. unfold array_get. rewrite decide_True by lia.
  pose proof (length_grid g (Z.of_nat c) rows) as Hlen.
  rewrite Nat2Z.id in Hlen.
  destruct (decide (k < Z.of_nat c * rows)) as [Hlt|Hge].
  - rewrite lookup_app_l by (rewrite Hlen; nia).
    specialize (IH ltac:(lia)). unfold array_get in IH.
    by rewrite decide_True in IH by lia.
  - rewrite lookup_app_r by (rewrite Hlen; nia). rewrite Hlen.
    change ([0 + Z.of_nat c] ≫= (λ n, m ← seqZ 0 rows; [g n m]))
      with ((m ← seqZ 0 rows; [g (0 + Z.of_nat c) m]) ++ []).
    rewrite app_nil_r, bind_singleton_fmap, list_lookup_fmap.
    rewrite lookup_seqZ_lt by nia. simpl. f_equal.
    assert (k `div` rows = Z.of_nat c) as ->
      by (symmetry; apply (Z.div_unique _ _ _ (k - Z.of_nat c * rows)); nia).
    assert (k `mod` rows = k - Z.of_nat c * rows) as ->
      by (symmetry; apply (Z.mod_unique _ _ (Z.of_nat c)); nia).
    f_equal; nia.
Qed.

Lemma NoDup_grid (cols rows : Z) :
  NoDup (n ← seqZ 0 cols; m ← seqZ 0 rows; [(n, m)]).
Proof.
  apply NoDup_bind; [| |apply NoDup_seqZ].
  - intros n1 n2 v _ _
      (m1 & ->%list_elem_of_singleton & _)%list_elem_of_bind
      (m2 & [= -> _]%list_elem_of_singleton & _)%list_elem_of_bind.
    done.
  - intros n _. rewrite bind_singleton_fmap.
    apply NoDup_fmap_2; [|apply NoDup_seqZ]. by intros ?? [= ->].
Qed.

(** The serpentine visits the sub-tiles of the forward enumeration. *)
Lemma visits_Permutation (op : MmaTensorOp) :
  visits op ≡ₚ (n ← seqZ 0 (kColumn (MmaIterations op));
                m ← seqZ 0 (kRow (MmaIterations op)); [(n, m)]).
Proof.
  apply NoDup_Permutation; [apply NoDup_visits|apply NoDup_grid|].
  intros [n m]. rewrite elem_of_visits. cbn [fst snd].
  rewrite list_elem_of_bind. split.
  - intros [Hn Hm]. exists n. split; [|apply elem_of_seqZ; lia].
    apply list_elem_of_bind. exists m.
    split; [by apply list_elem_of_singleton|apply elem_of_seqZ; lia].
  - intros (n' & (m' & [= -> ->]%list_elem_of_singleton
                     & Hm%elem_of_seqZ)%list_elem_of_bind & Hn%elem_of_seqZ).
    lia.
Qed.

(** X11. In every configuration the driver issues [rows * cols] calls, no
    two of them on the same accumulator chunk, and their (A chunk, B
    chunk) pairs are those of the forward double loop, each exactly once:
    the serpentine changes the order of the calls only. *)
Theorem operator_trace_visits_grid_once (op : MmaTensorOp) (pidx : Z) :
  let rows := kRow (MmaIterations op) in
  let cols := kColumn (MmaIterations op) in
  ∃ calls,
    operator_trace op pidx = Some calls ∧
    length calls = (Z.to_nat cols * Z.to_nat rows)%nat ∧
    NoDup (d_idx <$> calls) ∧
    (λ c, (a_idx c, b_idx c)) <$> calls
    ≡ₚ (n ← seqZ 0 cols; m ← seqZ 0 rows;
        [(m, if AccumulatorsInRowMajor op then n else n + n_off op pidx)]).
Proof.
  intros rows cols. exists (issued_call op pidx <$> visits op).
  split; [apply operator_trace_calls|].
  split; [rewrite length_fmap; apply length_grid|].
  split; [apply NoDup_slots|].
  rewrite <- list_fmap_compose, visits_Permutation.
  rewrite fmap_bind_list.
  erewrite list_bind_ext; [reflexivity| |done].
  intros n. simpl. by rewrite fmap_bind_list.
Qed.

Lemma issued_calls_lookup (op : MmaTensorOp) (pidx k : Z) :
  0 ≤ k < kRow (MmaIterations op) * kColumn (MmaIterations op) →
  array_get (issued_call op pidx <$> visits op) k
  = Some (issued_call op pidx
            (k `div` kRow (MmaIterations op),
             m_serpentine op (k `div` kRow (MmaIterations op))
               (k `mod` kRow (MmaIterations op)))).
Proof.
  intros Hk. pose proof (kColumn_pos op) as Hc.
  assert (issued_call op pidx <$> visits op
          = (n' ← seqZ 0 (kColumn (MmaIterations op));
             m' ← seqZ 0 (kRow (MmaIterations op));
             [issued_call op pidx (n', m_serpentine op n' m')])) as ->.
  { unfold visits. rewrite fmap_bind_list. apply list_bind_ext; [|done].
    intros n'. by rewrite fmap_bind_list. }
  by rewrite (lookup_grid
                (λ n' m', issued_call op pidx (n', m_serpentine op n' m')))
    by nia.
Qed.

(** X12. The schedule in closed form: call number [k] (from 0) works on
    column [n = k / rows] and on row [m_serpentine n (k mod rows)]. *)
Theorem operator_trace_schedule (op : MmaTensorOp) (pidx k : Z)
    (calls : list MmaCall) :
  let rows := kRow (MmaIterations op) in
  let cols := kColumn (MmaIterations op) in
  operator_trace op pidx = Some calls →
  0 ≤ k < rows * cols →
  let n := k `div` rows in
  let ms := m_serpentine op n (k `mod` rows) in
  array_get calls k =
    Some {| d_idx := if AccumulatorsInRowMajor op then n + ms * cols
                     else ms + (n + n_off op pidx) * rows;
            a_idx := ms;
            b_idx := if AccumulatorsInRowMajor op then n
                     else n + n_off op pidx |}.
Proof.
  intros rows cols Htr Hk n ms.
  rewrite operator_trace_calls in Htr. injection Htr as <-.
  rewrite issued_calls_lookup by done.
  unfold issued_call, slot. cbn [fst snd]. fold rows cols n ms.
  by destruct (AccumulatorsInRowMajor op).
Qed.

Lemma m_serpentine_turn (op : MmaTensorOp) (n : Z) :
  0 ≤ n →
  m_serpentine op (n + 1) 0
  = m_serpentine op n (kRow (MmaIterations op) - 1).
Proof.
  intros Hn. unfold m_serpentine.
  rewrite !Z.rem_mod_nonneg by lia.
  pose proof (Z.div_mod n 2 ltac:(lia)).
  pose proof (Z.mod_pos_bound n 2 ltac:(lia)).
  pose proof (Z.div_mod (n + 1) 2 ltac:(lia)).
  pose proof (Z.mod_pos_bound (n + 1) 2 ltac:(lia)).
  repeat case_decide; lia.
Qed.

(** X13. What the serpentine is for: two consecutive calls always share an
    operand.  Inside a column sweep they read the same B chunk; and the
    first call of the next column reads the A chunk of the call just
    before it, because the sweep turns round instead of starting over. *)
Theorem serpentine_reuses_operand (op : MmaTensorOp) (pidx k : Z)
    (calls : list MmaCall) (c c' : MmaCall) :
  operator_trace op pidx = Some calls →
  array_get calls k = Some c →
  array_get calls (k + 1) = Some c' →
  ((k + 1) `mod` kRow (MmaIterations op) ≠ 0 → b_idx c' = b_idx c) ∧
  ((k + 1) `mod` kRow (MmaIterations op) = 0 → a_idx c' = a_idx c).
Proof.
  intros Htr Hc Hc'.
  rewrite operator_trace_calls in Htr. injection Htr as <-.
  set (rows := kRow (MmaIterations op)) in *.
  set (cols := kColumn (MmaIterations op)) in *.
  pose proof (array_get_nonneg _ _ _ Hc) as Hk0.
  assert (k + 1 < rows * cols) as Hk1.
  { assert (is_Some (array_get (issued_call op pidx <$> visits op) (k + 1)))
      as Hs by (by eexists).
    apply array_get_is_Some in Hs.
    rewrite length_fmap in Hs. unfold visits in Hs.
    rewrite length_grid in Hs. fold rows cols in Hs. nia. }
  pose proof (kColumn_pos op) as Hcols. fold cols in Hcols.
  assert (0 < rows) as Hrows by nia.
  rewrite issued_calls_lookup in Hc by (fold rows cols; lia).
  rewrite issued_calls_lookup in Hc' by (fold rows cols; lia).
  injection Hc as <-. injection Hc' as <-. fold rows.
  pose proof (Z.div_mod k rows ltac:(lia)) as Hd.
  pose proof (Z.mod_pos_bound k rows ltac:(lia)) as Hb.
  pose proof (Z.div_mod (k + 1) rows ltac:(lia)) as Hd'.
  pose proof (Z.mod_pos_bound (k + 1) rows ltac:(lia)) as Hb'.
  assert (0 ≤ k `div` rows) as Hq by (apply Z.div_pos; lia).
  unfold issued_call. cbn [a_idx b_idx fst snd].
  change (kM (Shape op) ÷ kM (Operator_Shape op)) with rows.
  split.
  - intros Hne.
    assert ((k + 1) `div` rows = k `div` rows) as -> by nia. done.
  - intros Hz.
    assert ((k + 1) `div` rows = k `div` rows + 1) as Hn by nia.
    assert (k `mod` rows = rows - 1) as Hm by nia.
    rewrite Hz, Hn, Hm. apply m_serpentine_turn. done.
Qed.

(** * Evaluations of the further properties *)

(** X1 on eight elements. *)
Lemma ConvertAndPack_preserves_length_witness :
  ConvertAndPack (H := Z_numeric) half_t float 8 tt
    [11; 22; 33; 44; 55; 66; 77; 88]
  = Some [8; 32; 16; 40; 48; 72; 64; 88] ∧
  length [8; 32; 16; 40; 48; 72; 64; 88]
  = length [11; 22; 33; 44; 55; 66; 77; 88].
Proof.
  split; [done|].
  by apply (ConvertAndPack_preserves_length (H := Z_numeric)
              half_t float 8 tt).
Defined.

(** X2 on six elements: the loop leaves the source. *)
Lemma ConvertAndPack_half_float_in_bounds_iff_witness :
  ConvertAndPack (H := Z_numeric) half_t float 6 tt [11; 22; 33; 44; 55; 66]
  = None ∧
  (is_Some (ConvertAndPack (H := Z_numeric) half_t float 6 tt
              [11; 22; 33; 44; 55; 66])
   ↔ 6 `mod` 4 ≠ 2).
Proof.
  split; [done|].
  by apply (ConvertAndPack_half_float_in_bounds_iff (H := Z_numeric) 6 tt).
Defined.

(** X3 on eight elements. *)
Lemma ConvertAndPack_half_float_Permutation_witness :
  ∃ out,
    ConvertAndPack (H := Z_numeric) half_t float 8 tt
      [11; 22; 33; 44; 55; 66; 77; 88] = Some out ∧
    out ≡ₚ NumericConverter (NumericLibrary := Z_numeric) half_t float tt
             <$> [11; 22; 33; 44; 55; 66; 77; 88].
Proof.
  by apply (ConvertAndPack_half_float_Permutation (H := Z_numeric) 8 2 tt).
Defined.

(** X4 on a B fragment of five elements. *)
Lemma transform_leaves_odd_tail_witness :
  transform (H := Z_numeric) example_odd_op [0; 0; 0; 0] [0; 0; 0; 0; 99]
    [1; 2; 3; 4] [8; 16; 24; 32; 40]
  = Some ([1; 2; 3; 4], [8; 16; 24; 32; 99]) ∧
  length [8; 16; 24; 32; 99] = length [0; 0; 0; 0; 99] ∧
  (∀ i, 2 * (5 ÷ 2) ≤ i →
     array_get [8; 16; 24; 32; 99] i = array_get [0; 0; 0; 0; 99] i) ∧
  (5 `rem` 2 = 1 →
     array_get [8; 16; 24; 32; 99] (5 - 1) = array_get [0; 0; 0; 0; 99] (5 - 1)).
Proof.
  split; [done|].
  by apply (transform_leaves_odd_tail (H := Z_numeric) example_odd_op
              [0; 0; 0; 0] [0; 0; 0; 0; 99] [1; 2; 3; 4] [8; 16; 24; 32; 40]
              [1; 2; 3; 4]).
Defined.

(** X5 on a tile of 2 x 3 operators with two partitions. *)
Lemma instantiate_tiles_exactly_witness :
  instantiate (example_op 2 3 2 false) = Some {| kRow := 2; kColumn := 1 |} ∧
  2 * 16 = 32 ∧ tile_columns (example_op 2 3 2 false) * 8 = 24 ∧ 1 ≤ 1.
Proof.
  split; [done|].
  by apply (instantiate_tiles_exactly (example_op 2 3 2 false)
              {| kRow := 2; kColumn := 1 |}).
Defined.

(** X6 for partition 1 of 2 over four columns: the chunks of columns 0
    and 1 are left alone. *)
Lemma operator_call_frame_witness :
  operator_call (H := Z_mma) (example_op 2 4 2 false)
    [1; 2] [10; 100; 1000; 10000] [1; 2; 3; 4; 5; 6; 7; 8] 1
  = Some [1; 2; 3; 4; 1005; 2006; 10007; 20008] ∧
  ∀ j, j < 4 ∨ 8 ≤ j →
    array_get [1; 2; 3; 4; 1005; 2006; 10007; 20008] j
    = array_get [1; 2; 3; 4; 5; 6; 7; 8] j.
Proof.
  split; [done|].
  by apply (operator_call_frame (H := Z_mma) (example_op 2 4 2 false)
              [1; 2] [10; 100; 1000; 10000] [1; 2; 3; 4; 5; 6; 7; 8] 1).
Defined.

(** X8 on a 2x2 grid. *)
Lemma operator_call_chained_witness :
  operator_call (H := Z_mma) (example_op 2 2 1 false)
    [1; 2] [10; 100] [1; 2; 3; 4] 0 = Some [11; 22; 103; 204] ∧
  operator_call (H := Z_mma) (example_op 2 2 1 false)
    [3; 4] [5; 6] [11; 22; 103; 204] 0 = Some [26; 42; 121; 228] ∧
  ∃ x y x' y' z,
    array_get [1; 2] 1 = Some x ∧ array_get [10; 100] 1 = Some y ∧
    array_get [3; 4] 1 = Some x' ∧ array_get [5; 6] 1 = Some y' ∧
    array_get [1; 2; 3; 4] 3 = Some z ∧
    array_get [26; 42; 121; 228] 3 = Some (x' * y' + (x * y + z)).
Proof.
  split; [done|]. split; [done|].
  by apply (operator_call_chained (H := Z_mma) (example_op 2 2 1 false)
              [1; 2] [10; 100] [3; 4] [5; 6] [1; 2; 3; 4] 0
              [11; 22; 103; 204] [26; 42; 121; 228] eq_refl eq_refl 1 1).
Defined.

(** X9 with two partitions over three columns. *)
Lemma operator_call_in_bounds_witness :
  valid_config (example_op 2 3 2 false) ∧
  operator_call (H := Z_mma) (example_op 2 3 2 false)
    [1; 2] [10; 100; 1000] [1; 2; 3; 4; 5; 6] 1
  = Some [1; 2; 103; 204; 5; 6] ∧
  is_Some (operator_call (H := Z_mma) (example_op 2 3 2 false)
             [1; 2] [10; 100; 1000] [1; 2; 3; 4; 5; 6] 1).
Proof.
  assert (valid_config (example_op 2 3 2 false)) as Hv
    by (by apply valid_example_op).
  split; [done|]. split; [done|].
  by apply (operator_call_in_bounds (H := Z_mma)).
Defined.


(** X12, call number 2 of a 2x2 grid. *)
Lemma operator_trace_schedule_witness :
  array_get
    [ {| d_idx := 0; a_idx := 0; b_idx := 0 |};
      {| d_idx := 1; a_idx := 1; b_idx := 0 |};
      {| d_idx := 3; a_idx := 1; b_idx := 1 |};
      {| d_idx := 2; a_idx := 0; b_idx := 1 |} ] 2
  = Some {| d_idx := 3; a_idx := 1; b_idx := 1 |}.
Proof.
  by apply (operator_trace_schedule (example_op 2 2 1 false) 0 2).
Defined.

(** X13 at the turn between columns 0 and 1 of a 2x2 grid. *)
Lemma serpentine_reuses_operand_witness :
  ((1 + 1) `mod` 2 ≠ 0 → 1 = 0) ∧ ((1 + 1) `mod` 2 = 0 → 1 = 1).
Proof.
  by apply (serpentine_reuses_operand (example_op 2 2 1 false) 0 1
    [ {| d_idx := 0; a_idx := 0; b_idx := 0 |};
      {| d_idx := 1; a_idx := 1; b_idx := 0 |};
      {| d_idx := 3; a_idx := 1; b_idx := 1 |};
      {| d_idx := 2; a_idx := 0; b_idx := 1 |} ]
    {| d_idx := 1; a_idx := 1; b_idx := 0 |}
    {| d_idx := 3; a_idx := 1; b_idx := 1 |}).
Defined.
